(** * ollama-subs: a shallow embedding of [ollama_subs.py]

    The script reads an SRT subtitle file, sends the captions to a chat
    backend in batches, checks that every reply covers its batch, bisects
    the batches whose replies stay incomplete, and prints the translated
    file.  This development embeds the functions of the script and proves
    the properties stated about them.

    Python [str] values are modelled as [string]; a character is a code
    point below 256.  Dictionaries keyed by subtitle id are [gmap string
    string]: the script never iterates over them, so only lookup, insertion
    and union are observable. *)

From Stdlib Require Import String Ascii List ZArith Lia.
From stdpp Require Import base option list gmap strings.

Import ListNotations.
Local Open Scope string_scope.

(** ** Characters and the string primitives of Python that the script uses *)

Module Py.

(** The line feed, ['\n']. *)
Definition nl : ascii := "010"%char.

(** [str.isspace] on the code points below 256; [str.strip()] and the
    regular expression class [\s] both use this set. *)
Definition is_space (c : ascii) : bool :=
  let n := nat_of_ascii c in
  (((9 <=? n) && (n <=? 13)) || ((28 <=? n) && (n <=? 32))
   || (n =? 133) || (n =? 160))%nat.

(** The class [\d] (and the complement of [\D]) below 256: the ten
    decimal digits. *)
Definition is_digit (c : ascii) : bool :=
  let n := nat_of_ascii c in ((48 <=? n) && (n <=? 57))%nat.

(** [s.lstrip()]. *)
Fixpoint lstrip (s : string) : string :=
  match s with
  | String c s' => if is_space c then lstrip s' else s
  | EmptyString => EmptyString
  end.

(** [s.rstrip()]. *)
Fixpoint rstrip (s : string) : string :=
  match s with
  | String c s' =>
      match rstrip s' with
      | EmptyString => if is_space c then EmptyString else String c EmptyString
      | r => String c r
      end
  | EmptyString => EmptyString
  end.

(** [s.strip()]. *)
Definition strip (s : string) : string := lstrip (rstrip s).

(** [s.split('\n')]: always at least one piece. *)
Fixpoint split_nl (s : string) : list string :=
  match s with
  | EmptyString => [EmptyString]
  | String c s' =>
      if Ascii.eqb c nl then EmptyString :: split_nl s'
      else match split_nl s' with
           | piece :: pieces => String c piece :: pieces
           | [] => [String c EmptyString]
           end
  end.

(** ["\n".join(pieces)]. *)
Fixpoint join_nl (pieces : list string) : string :=
  match pieces with
  | [] => EmptyString
  | [piece] => piece
  | piece :: rest => piece ++ String nl (join_nl rest)
  end.

(** [re.sub(r'\D', '', s)]: drop every character that is not a digit. *)
Fixpoint sub_non_digits (s : string) : string :=
  match s with
  | String c s' =>
      if is_digit c then String c (sub_non_digits s') else sub_non_digits s'
  | EmptyString => EmptyString
  end.

(** The longest prefix of digits, and what follows it. *)
Fixpoint span_digits (s : string) : string * string :=
  match s with
  | String c s' =>
      if is_digit c
      then let '(ds, rest) := span_digits s' in (String c ds, rest)
      else (EmptyString, s)
  | EmptyString => (EmptyString, EmptyString)
  end.

(** [re.split(r'\n\n+', s)].  The scan goes left to right; a separator
    starts at the first line feed that is followed by another one and,
    the [+] being greedy, takes every line feed after it.  [skipping] is
    true while the scan is inside a separator whose first line feed has
    been consumed; [piece] is the text gathered since the last
    separator. *)
Fixpoint re_split_go (s : string) (piece : string) (skipping : bool)
  : list string :=
  match s with
  | EmptyString => [piece]
  | String c s' =>
      if skipping then
        if Ascii.eqb c nl then re_split_go s' piece true
        else re_split_go s' (piece ++ String c EmptyString) false
      else
        match s' with
        | String c' _ =>
            if Ascii.eqb c nl && Ascii.eqb c' nl
            then piece :: re_split_go s' EmptyString true
            else re_split_go s' (piece ++ String c EmptyString) false
        | EmptyString => [piece ++ String c EmptyString]
        end
  end.

Definition re_split_blank_lines (s : string) : list string :=
  re_split_go s EmptyString false.

End Py.

(** ** Subtitle records and the Subtitle Parser *)

(** The dictionary built by [parse_srt] for each block. *)
Record Sub : Type := mkSub {
  index : string;
  timestamp : string;
  text : string;
  translated_text : string
}.

(** The body of the loop of [parse_srt]: a block of fewer than three lines
    is skipped. *)
Definition parse_block (block : string) : option Sub :=
  match Py.split_nl block with
  | line0 :: line1 :: lines2 =>
      match lines2 with
      | [] => None
      | _ :: _ =>
          Some {| index := Py.sub_non_digits (Py.strip line0);
                  timestamp := Py.strip line1;
                  text := Py.join_nl lines2;
                  translated_text := "" |}
      end
  | _ => None
  end.

Definition parse_srt (content : string) : list Sub :=
  omap parse_block (Py.re_split_blank_lines (Py.strip content)).

(** ** The Response Parser *)

(** [new_block_pattern.match(line)]: the pattern is anchored at the start
    of the line and reads one or more digits (group 1), any white space,
    the delimiter [>>>], any white space, and the rest of the line
    (group 2).  The result is the two groups when the line matches.  Each
    greedy quantifier can only stop where the scan stops here: giving back
    a digit leaves a digit in front of the white space or the delimiter,
    giving back a space leaves a space in front of the delimiter.  The
    line holds no line feed, so group 2 takes all that is left. *)
Definition match_new_block (line : string) : option (string * string) :=
  let '(digits, rest) := Py.span_digits line in
  match digits with
  | EmptyString => None
  | _ =>
      match Py.lstrip rest with
      | String ">" (String ">" (String ">" rest')) =>
          Some (digits, Py.lstrip rest')
      | _ => None
      end
  end.

(** The variables of the loop of [parse_llm_response]. *)
Record parser_state : Type := mkParser {
  translation_map : gmap string string;
  current_id : option string;
  current_text_lines : list string
}.

Definition parser_init : parser_state :=
  {| translation_map := ∅; current_id := None; current_text_lines := [] |}.

(** [translation_map[current_id] = "\n".join(current_text_lines).strip()]
    when a current id is set. *)
Definition flush (ps : parser_state) : gmap string string :=
  match current_id ps with
  | Some id =>
      <[id := Py.strip (Py.join_nl (current_text_lines ps))]>
        (translation_map ps)
  | None => translation_map ps
  end.

(** One iteration of the loop over the lines of the reply. *)
Definition parse_line (ps : parser_state) (raw : string) : parser_state :=
  let line := Py.strip raw in
  match line with
  | EmptyString => ps
  | _ =>
      match match_new_block line with
      | Some (id, text_part) =>
          {| translation_map := flush ps;
             current_id := Some id;
             current_text_lines :=
               match text_part with
               | EmptyString => []
               | _ => [text_part]
               end |}
      | None =>
          match current_id ps with
          | Some _ =>
              {| translation_map := translation_map ps;
                 current_id := current_id ps;
                 current_text_lines := (current_text_lines ps ++ [line])%list |}
          | None => ps
          end
      end
  end.

Definition parse_lines (ps : parser_state) (lines : list string)
  : parser_state :=
  fold_left parse_line lines ps.

Definition parse_llm_response (response_text : string)
  : gmap string string :=
  flush (parse_lines parser_init (Py.split_nl (Py.strip response_text))).

(** The ids of the lines of a reply that open an entry, in order. *)
Definition entry_ids (lines : list string) : list string :=
  omap (fun raw => fst <$> match_new_block (Py.strip raw)) lines.

(** ** The Prompt Builder *)

(** The string of one line feed, for writing captions of several lines. *)
Definition lf : string := String Py.nl EmptyString.

(** The command-line options, as [argparse] returns them. *)
Record Args : Type := mkArgs {
  lang : string;
  model : string;
  batch_size : Z;
  retries : Z
}.

Definition generate_prompt (batch : list Sub) (target_lang : string)
  : string * string :=
  let formatted_input :=
    Py.join_nl (map (fun sub => index sub ++ " >>> " ++ text sub) batch) in
  let system_prompt :=
    "You are a professional translator. Translate the text to "
    ++ target_lang ++ "." ++ lf
    ++ "RULES:" ++ lf
    ++ "1. Output format must be strictly: ID >>> Translated Text" ++ lf
    ++ "2. Maintain the exact same IDs as the input." ++ lf
    ++ "3. Keep HTML tags (<i>, <b>) exactly as they are." ++ lf
    ++ "4. Do not output anything else." in
  (system_prompt, formatted_input).

(** ** The backend, the diagnostics and the exceptions *)

(** What the body of the [try] block gets from [ollama.chat]: the content
    of the reply, or an exception (raised by the call or by reading the
    reply), of which only the message is kept. *)
Inductive chat_result : Type :=
| Reply (content : string)
| ChatError (message : string).

(** The backend is outside the script.  It is a deterministic transition
    on a state of its own: a call takes the model name, the system prompt
    and the user input, and yields a result and the next state. *)
Class Backend (B : Type) : Type :=
  chat : B -> string -> string -> string -> chat_result * B.

(** The lines that [process_batch_recursive] writes to the diagnostic
    stream, with the [depth] that sets their indentation.  [LogError]
    stands for the line of the [except] branch and the pause of one second
    after it. *)
Inductive event : Type :=
| LogError (depth : nat) (message : string)
| LogFailed (depth : nat) (id : string)
| LogSplit (depth : nat) (size left_size right_size : nat).

Definition event_depth (e : event) : nat :=
  match e with
  | LogError d _ | LogFailed d _ | LogSplit d _ _ _ => d
  end.

(** The exceptions that leave the script's functions. *)
Inductive exn : Type :=
| IndexError
| ValueError
| SystemExit (code : Z).

(** The outcome of a call: a value, an exception, or a recursion that went
    deeper than the [fuel] allows. *)
Inductive result (A : Type) : Type :=
| Ok (a : A)
| Raise (e : exn)
| OutOfFuel.
Arguments Ok {A} a.
Arguments Raise {A} e.
Arguments OutOfFuel {A}.

(** Sequencing: an exception, or the lack of fuel, ends the computation. *)
Definition result_bind {A R : Type} (k : A -> result R) (r : result A)
  : result R :=
  match r with
  | Ok a => k a
  | Raise e => Raise e
  | OutOfFuel => OutOfFuel
  end.

#[global] Instance result_mbind : MBind result := @result_bind.

(** ** The Recursive Batch Translator *)

Section Translator.
Context {B : Type} `{Backend B}.

(** [missing = [bid for bid in batch_ids if bid not in translation_map]]. *)
Definition missing_ids (batch_ids : list string)
    (translation_map : gmap string string) : list string :=
  filter (fun bid => translation_map !! bid = None) batch_ids.

(** The [for attempt in range(1, args.retries + 1)] loop, with the
    number of iterations still to run.  [Some] is the return from inside
    the loop; [None] means that the loop ran to its end. *)
Fixpoint attempts (remaining : nat) (batch_ids : list string)
    (args : Args) (system_prompt user_input : string) (depth : nat)
    (st : B) : option (gmap string string) * B * list event :=
  match remaining with
  | 0 => (None, st, [])
  | S remaining' =>
      let '(response, st1) :=
        chat st (model args) system_prompt user_input in
      match response with
      | Reply content =>
          let translation_map := parse_llm_response content in
          match missing_ids batch_ids translation_map with
          | [] => (Some translation_map, st1, [])
          | _ :: _ =>
              attempts remaining' batch_ids args system_prompt user_input
                depth st1
          end
      | ChatError message =>
          let '(found, st2, log) :=
            attempts remaining' batch_ids args system_prompt user_input
              depth st1 in
          (found, st2, LogError depth message :: log)
      end
  end.

(** Every one of the next [remaining] calls of the backend fails or
    gives a reply whose dictionary lacks an id of the batch. *)
Fixpoint every_attempt_fails (remaining : nat) (batch_ids : list string)
    (args : Args) (system_prompt user_input : string) (st : B) : bool :=
  match remaining with
  | 0 => true
  | S remaining' =>
      let '(response, st1) :=
        chat st (model args) system_prompt user_input in
      match response with
      | Reply content =>
          match missing_ids batch_ids (parse_llm_response content) with
          | [] => false
          | _ :: _ => true
          end
      | ChatError _ => true
      end
      && every_attempt_fails remaining' batch_ids args system_prompt
           user_input st1
  end.

(** [process_batch_recursive(batch, args, depth)].  Every nested call
    gets one unit of [fuel] less, so a call with [S k] units nests at
    most [k] calls below itself.  The union of two dictionaries written
    with the second one unpacked last keeps the second one's value on a
    shared key; [∪] on [gmap] keeps its left operand's. *)
Fixpoint process_batch_recursive (fuel : nat) (batch : list Sub)
    (args : Args) (depth : nat) (st : B)
  : result (gmap string string * B * list event) :=
  match fuel with
  | 0 => OutOfFuel
  | S fuel' =>
      let batch_ids := map index batch in
      let '(system_prompt, user_input) :=
        generate_prompt batch (lang args) in
      match attempts (Z.to_nat (retries args)) batch_ids args
              system_prompt user_input depth st with
      | (Some translation_map, st1, log) => Ok (translation_map, st1, log)
      | (None, st1, log) =>
          if (length batch <=? 1)%nat then
            match batch with
            | sub :: _ =>
                Ok (∅, st1, (log ++ [LogFailed depth (index sub)])%list)
            | [] => Raise IndexError
            end
          else
            let mid := (length batch / 2)%nat in
            let left_batch := take mid batch in
            let right_batch := drop mid batch in
            let split :=
              LogSplit depth (length batch) (length left_batch)
                (length right_batch) in
            '(results_left, st2, log_left) ←
              process_batch_recursive fuel' left_batch args (S depth) st1;
            '(results_right, st3, log_right) ←
              process_batch_recursive fuel' right_batch args (S depth) st2;
            Ok (results_right ∪ results_left, st3,
                (log ++ split :: log_left ++ log_right)%list)
      end
  end.

(** The loop as [process_batch_recursive] runs it on a batch. *)
Definition attempts_of (batch : list Sub) (args : Args) (depth : nat)
    (st : B) : option (gmap string string) * B * list event :=
  attempts (Z.to_nat (retries args)) (map index batch) args
    (generate_prompt batch (lang args)).1
    (generate_prompt batch (lang args)).2 depth st.

(** Whether the loop on a batch runs to its end. *)
Definition retries_exhausted (batch : list Sub) (args : Args) (st : B)
  : bool :=
  every_attempt_fails (Z.to_nat (retries args)) (map index batch) args
    (generate_prompt batch (lang args)).1
    (generate_prompt batch (lang args)).2 st.

(** A call with fuel for any batch (see [process_batch_total]). *)
Definition process_batch (batch : list Sub) (args : Args) (depth : nat)
    (st : B) : result (gmap string string * B * list event) :=
  process_batch_recursive (S (length batch)) batch args depth st.

(** The translation of a record is the value, under the record's id, of
    a dictionary that the translator returned for a batch holding that
    id. *)
Definition from_translator (args : Args) (sub : Sub) : Prop :=
  exists (records : list Sub) (st0 st1 : B) (m : gmap string string)
         (log : list event),
    process_batch records args 0 st0 = Ok (m, st1, log)
    /\ index sub ∈ map index records
    /\ m !! index sub = Some (translated_text sub).

(** ** The Pipeline Driver *)

(** [range(0, total, step)]. *)
Definition range_from_zero (total : nat) (step : Z) : result (list nat) :=
  if (step =? 0)%Z then Raise ValueError
  else if (step <? 0)%Z then Ok []
  else
    let k := Z.to_nat step in
    Ok (map (fun j => j * k)%nat (seq 0 ((total + k - 1) / k)%nat)).

(** The records are dictionaries that the batches share with the list
    [subtitles]: a record is identified by its position in [subtitles],
    and a batch is the list of the positions that the slice
    [subtitles[i:i + batch_size]] holds. *)
Definition slice_positions (total i size : nat) : list nat :=
  seq i (Nat.min (i + size) total - i).

Definition batch_records (subtitles : list Sub) (batch : list nat)
  : list Sub :=
  omap (fun pos => subtitles !! pos) batch.

(** The body of [for sub in batch]: a dictionary is false when it is
    empty. *)
Definition merge_sub (translation_map : gmap string string) (sub : Sub)
  : Sub :=
  let found :=
    if bool_decide (size translation_map = 0%nat) then None
    else translation_map !! index sub in
  {| index := index sub;
     timestamp := timestamp sub;
     text := text sub;
     translated_text :=
       match found with
       | Some translated => translated
       | None => text sub
       end |}.

Definition merge_batch (translation_map : gmap string string)
    (batch : list nat) (subtitles : list Sub) : list Sub :=
  fold_left (fun store pos => alter (merge_sub translation_map) pos store)
    batch subtitles.

(** [for batch in batches]: translate, then write into the records.  The
    top-level call of the translator has depth 0. *)
Fixpoint translate_batches (batches : list (list nat)) (args : Args)
    (subtitles : list Sub) (st : B) : result (list Sub * B * list event) :=
  match batches with
  | [] => Ok (subtitles, st, [])
  | batch :: batches' =>
      let records := batch_records subtitles batch in
      '(translation_map, st1, log) ←
        process_batch records args 0 st;
      '(subtitles', st2, log') ←
        translate_batches batches' args
          (merge_batch translation_map batch subtitles) st1;
      Ok (subtitles', st2, (log ++ log')%list)
  end.

(** The final loop of [main]: what is written to the standard output. *)
Definition write_srt (subtitles : list Sub) : string :=
  fold_right
    (fun sub out =>
       index sub ++ lf ++ timestamp sub ++ lf
       ++ translated_text sub ++ lf ++ lf ++ out)
    "" subtitles.

(** The records at the end of [main], for an input that was piped in. *)
Definition run_pipeline (args : Args) (input_content : string) (st : B)
  : result (list Sub * B * list event) :=
  let subtitles := parse_srt input_content in
  let total_subs := length subtitles in
  starts ← range_from_zero total_subs (batch_size args);
  let batches :=
    map (fun i => slice_positions total_subs i (Z.to_nat (batch_size args)))
      starts in
  translate_batches batches args subtitles st.

(** [main()]: [stdin] is [None] when the standard input is a terminal.
    The result is the text written to the standard output. *)
Definition main (args : Args) (stdin : option string) (st : B)
  : result (string * B * list event) :=
  match stdin with
  | None => Raise (SystemExit 1)
  | Some input_content =>
      '(subtitles, st', log) ← run_pipeline args input_content st;
      Ok (write_srt subtitles, st', log)
  end.

End Translator.

(** ** Backends for the examples *)

(** A backend that answers every call with the same reply. *)
Definition constant_backend (reply : string) : Backend unit :=
  fun st _ _ _ => (Reply reply, st).

(** A backend that plays a script: the state is the list of the results
    still to give; when it is used up every call fails. *)
Definition scripted_backend : Backend (list chat_result) :=
  fun st _ _ _ =>
    match st with
    | r :: st' => (r, st')
    | [] => (ChatError "connection refused", [])
    end.

(** A backend that echoes the user input: a complete reply for every
    batch. *)
Definition echo_backend : Backend unit :=
  fun st _ _ user_input => (Reply user_input, st).

(** ** Sample data *)

Definition sample_args : Args :=
  {| lang := "Spanish"; model := "llama3"; batch_size := 20; retries := 2 |}.

Definition sample_timecode : string := "00:00:01,000 --> 00:00:02,000".

Definition sample_sub (id caption : string) : Sub :=
  {| index := id; timestamp := sample_timecode; text := caption;
     translated_text := "" |}.

(** A file of one block. *)
Definition sample_file : string :=
  "7" ++ lf ++ sample_timecode ++ lf ++ "Hi".

(** The same block with a space on each side of the timecode. *)
Definition padded_file : string :=
  "7" ++ lf ++ " " ++ sample_timecode ++ " " ++ lf ++ "Hi".

(** A file of two blocks, three line feeds between them and one at the
    end. *)
Definition sample_blocks : list (list string * nat) :=
  [ (["7"; sample_timecode; "Hi"], 3%nat);
    (["8"; "00:00:03,000 --> 00:00:04,500"; "<i>Good</i>"; "morning"], 1%nat) ].

(** A batch of four records and a reply that lacks the id 5. *)
Definition batch_3456 : list Sub :=
  [sample_sub "3" "three"; sample_sub "4" "four";
   sample_sub "5" "five"; sample_sub "6" "six"].

Definition reply_without_5 : string :=
  "3 >>> tres" ++ lf ++ "4 >>> cuatro" ++ lf ++ "6 >>> seis".

(** For the scripted backend: two replies that lack the id 5, then a
    complete reply for each half of the batch. *)
Definition script_3456 : list chat_result :=
  [ Reply reply_without_5; Reply reply_without_5;
    Reply ("3 >>> tres" ++ lf ++ "4 >>> cuatro");
    Reply ("5 >>> cinco" ++ lf ++ "6 >>> seis") ].


(** ** Well-formed subtitle files *)

(** A run of [k] line feeds. *)
Fixpoint line_feeds (k : nat) : string :=
  match k with
  | 0 => EmptyString
  | S k' => String Py.nl (line_feeds k')
  end.

(** No line feed occurs in the string: it is one line. *)
Fixpoint one_line (s : string) : bool :=
  match s with
  | String c s' => negb (Ascii.eqb c Py.nl) && one_line s'
  | EmptyString => true
  end.

Fixpoint all_digits (s : string) : bool :=
  match s with
  | String c s' => Py.is_digit c && all_digits s'
  | EmptyString => true
  end.

(** The last character of the string is a line feed. *)
Fixpoint ends_nl (s : string) : bool :=
  match s with
  | EmptyString => false
  | String c EmptyString => Ascii.eqb c Py.nl
  | String _ s' => ends_nl s'
  end.

Definition non_empty (s : string) : bool :=
  match s with
  | EmptyString => false
  | String _ _ => true
  end.

(** No white space at either end. *)
Definition trimmed (s : string) : bool := String.eqb (Py.strip s) s.

(** A block of a well-formed file, as its lines: a number, a timecode
    without white space around it, and one or more lines of text; no line
    is empty. *)
Definition wf_block (lines : list string) : bool :=
  forallb (fun line => non_empty line && one_line line) lines
  && match lines with
     | line0 :: line1 :: _ :: _ => all_digits line0 && trimmed line1
     | _ => false
     end.

(** A file is a list of blocks, each with the number of line feeds that
    follow it.  Two or more line feeds separate a block from the next one;
    any number of them may follow the last block, whose last line does not
    end in white space. *)
Fixpoint wf_file (blocks : list (list string * nat)) : bool :=
  match blocks with
  | [] => true
  | [(lines, _)] =>
      wf_block lines
      && match last lines with
         | Some line => String.eqb (Py.rstrip line) line
         | None => false
         end
  | (lines, gap) :: rest => wf_block lines && (2 <=? gap)%nat && wf_file rest
  end.

Fixpoint render_file (blocks : list (list string * nat)) : string :=
  match blocks with
  | [] => EmptyString
  | (lines, gap) :: rest =>
      Py.join_nl lines ++ line_feeds gap ++ render_file rest
  end.

(** The file without the line feeds after its last block. *)
Fixpoint without_trailing_feeds (blocks : list (list string * nat))
  : list (list string * nat) :=
  match blocks with
  | [] => []
  | [(lines, _)] => [(lines, 0%nat)]
  | block :: rest => block :: without_trailing_feeds rest
  end.

(** The record that a block stands for. *)
Definition block_record (lines : list string) : Sub :=
  {| index := nth 0 lines "";
     timestamp := nth 1 lines "";
     text := Py.join_nl (drop 2 lines);
     translated_text := "" |}.

(** The fallback of the driver: the source text as the translation. *)
Definition keep_source (sub : Sub) : Sub :=
  {| index := index sub;
     timestamp := timestamp sub;
     text := text sub;
     translated_text := text sub |}.

(** The file with one blank line after every block. *)
Definition normalised_file (blocks : list (list string * nat)) : string :=
  render_file (map (fun '(lines, _) => (lines, 2%nat)) blocks).

(** ** Further definitions for the properties *)

(** A backend that counts its calls: the state is the number of calls made
    so far, and the result of a call may depend on that number and on the
    request. *)
Definition counting_backend
    (oracle : nat -> string -> string -> string -> chat_result)
  : Backend nat :=
  fun calls model_name system_prompt user_input =>
    (oracle calls model_name system_prompt user_input, S calls).

(** For the scripted backend: as [script_3456], but the backend never
    gives the id 5. *)
Definition script_without_5 : list chat_result :=
  [ Reply reply_without_5; Reply reply_without_5;
    Reply ("3 >>> tres" ++ lf ++ "4 >>> cuatro");
    Reply "6 >>> seis"; Reply "6 >>> seis";
    Reply "6 >>> seis"; Reply "6 >>> seis"; Reply "6 >>> seis" ].

(** A file whose only block has no digit on its first line. *)
Definition unnumbered_file : string :=
  "[intro]" ++ lf ++ sample_timecode ++ lf ++ "Hi".

(** The sample options with a negative batch size. *)
Definition negative_args : Args :=
  {| lang := "Spanish"; model := "llama3"; batch_size := -5; retries := 2 |}.

(** The pieces with [s] appended to the last of them. *)
Fixpoint append_to_last (pieces : list string) (s : string) : list string :=
  match pieces with
  | [] => [s]
  | [piece] => [piece ++ s]
  | piece :: rest => piece :: append_to_last rest s
  end.

(** The lines that the loop of [parse_llm_response] does not skip, as it
    sees them: stripped, and not empty. *)
Definition significant_lines (lines : list string) : list string :=
  filter (fun line => line <> "") (map Py.strip lines).

(** The line of the user input for one record. *)
Definition prompt_line (sub : Sub) : string :=
  index sub ++ " >>> " ++ text sub.

(** ** The batches of a run and their dictionaries *)

(** The batches of [main] as lists of records:
    [subtitles[i:i + batch_size]] for every [i] of the range. *)
Definition chunks_of (subtitles : list Sub) (size : Z)
  : result (list (list Sub)) :=
  starts ← range_from_zero (length subtitles) size;
  Ok (map (fun i => take (Z.to_nat size) (drop i subtitles)) starts).

Section RunMaps.
Context {B : Type} `{Backend B}.

(** The dictionaries that the translator returns for the batches of a run,
    in the order of the batches: the call for a batch starts in the state
    in which the call for the batch before it left the backend, and the log
    is the log of the calls, one after the other. *)
Fixpoint batch_maps (chunks : list (list Sub)) (args : Args) (st : B)
  : result (list (gmap string string) * B * list event) :=
  match chunks with
  | [] => Ok ([], st, [])
  | chunk :: chunks' =>
      '(m, st1, log) ← process_batch chunk args 0 st;
      '(maps, st2, log') ← batch_maps chunks' args st1;
      Ok (m :: maps, st2, (log ++ log')%list)
  end.

End RunMaps.

(** No position is in two batches. *)
Fixpoint batches_disjoint (batches : list (list nat)) : Prop :=
  match batches with
  | [] => True
  | batch :: rest =>
      Forall (fun other => forall pos, pos ∈ batch -> pos ∉ other) rest
      /\ batches_disjoint rest
  end.

(** A file of two blocks, and a script for the scripted backend in which
    the first four calls fail and the fifth reply, which answers the
    second record, also carries the id of the first. *)
Definition two_block_file : string :=
  "1" ++ lf ++ sample_timecode ++ lf ++ "Hello" ++ lf ++ lf
  ++ "2" ++ lf ++ sample_timecode ++ lf ++ "Bye".

Definition stray_reply : string := "2 >>> y" ++ lf ++ "1 >>> stray".

Definition stray_script : list chat_result :=
  [ ChatError "timeout"; ChatError "timeout";
    ChatError "timeout"; ChatError "timeout"; Reply stray_reply ].

(** * Properties *)

(** ** Facts about the string primitives *)

Module PyFacts.
Import Py.

(** [simpl] leaves the concatenation of strings folded; these two
    equations unfold it. *)
Lemma append_cons (c : ascii) (s t : string) :
  String c s ++ t = String c (s ++ t).
Proof. reflexivity. Qed.

Lemma append_nil_l (s : string) : "" ++ s = s.
Proof. reflexivity. Qed.

Lemma append_nil_r (s : string) : s ++ "" = s.
Proof.
  induction s as [|c s IH]; [reflexivity |].
  now rewrite append_cons, IH.
Qed.

Lemma append_assoc (a b c : string) : (a ++ b) ++ c = a ++ b ++ c.
Proof.
  induction a as [|x a IH]; [reflexivity |].
  now rewrite !append_cons, IH.
Qed.

Lemma digit_not_space (c : ascii) : is_digit c = true -> is_space c = false.
Proof.
  destruct c as [[] [] [] [] [] [] [] []]; vm_compute; congruence.
Qed.

Lemma digit_not_nl (c : ascii) : is_digit c = true -> Ascii.eqb c nl = false.
Proof.
  destruct c as [[] [] [] [] [] [] [] []]; vm_compute; congruence.
Qed.

Lemma nl_is_space : is_space nl = true.
Proof. reflexivity. Qed.

Lemma lstrip_head (c : ascii) (s : string) :
  is_space c = false -> lstrip (String c s) = String c s.
Proof. intros Hc. simpl. now rewrite Hc. Qed.

Lemma rstrip_cons (c : ascii) (s : string) :
  rstrip s <> "" -> rstrip (String c s) = String c (rstrip s).
Proof. intros Hs. simpl. destruct (rstrip s); [contradiction | reflexivity]. Qed.

Lemma rstrip_app (a b : string) :
  rstrip b <> "" -> rstrip (a ++ b) = a ++ rstrip b.
Proof.
  intros Hb. induction a as [|c a IH]; [reflexivity |].
  rewrite append_cons, rstrip_cons; rewrite IH; [reflexivity |].
  destruct a; [exact Hb | discriminate].
Qed.

Lemma rstrip_app_blank (a b : string) :
  rstrip b = "" -> rstrip (a ++ b) = rstrip a.
Proof.
  intros Hb. induction a as [|c a IH]; [exact Hb |].
  rewrite append_cons. simpl. now rewrite IH.
Qed.

Lemma rstrip_line_feeds (k : nat) : rstrip (line_feeds k) = "".
Proof. induction k as [|k IH]; simpl; [reflexivity | now rewrite IH]. Qed.

Lemma eqb_nl_true (c : ascii) : Ascii.eqb c nl = true -> c = nl.
Proof. apply Ascii.eqb_eq. Qed.

(** *** [split] and [join] *)

Lemma split_nl_line (l rest : string) :
  one_line l = true ->
  split_nl (l ++ String nl rest) = l :: split_nl rest.
Proof.
  induction l as [|c l IH]; intros Hl; [reflexivity |].
  simpl in Hl. apply andb_prop in Hl as [Hc Hl].
  rewrite append_cons. simpl.
  destruct (Ascii.eqb c nl); [discriminate |].
  now rewrite IH.
Qed.

Lemma split_nl_one_line (l : string) : one_line l = true -> split_nl l = [l].
Proof.
  induction l as [|c l IH]; intros Hl; [reflexivity |].
  simpl in Hl. apply andb_prop in Hl as [Hc Hl]. simpl.
  destruct (Ascii.eqb c nl); [discriminate |].
  now rewrite IH.
Qed.

Lemma split_join (lines : list string) :
  lines <> [] ->
  forallb one_line lines = true ->
  split_nl (join_nl lines) = lines.
Proof.
  induction lines as [|l lines IH]; intros Hne Hall; [contradiction |].
  simpl in Hall. apply andb_prop in Hall as [Hl Hall].
  destruct lines as [|l' lines].
  - simpl. now apply split_nl_one_line.
  - change (join_nl (l :: l' :: lines))
      with (l ++ String nl (join_nl (l' :: lines))).
    rewrite split_nl_line by exact Hl.
    rewrite IH; [reflexivity | discriminate | exact Hall].
Qed.

(** *** Digits *)

Lemma sub_non_digits_all_digits (s : string) :
  all_digits s = true -> sub_non_digits s = s.
Proof.
  induction s as [|c s IH]; intros Hs; [reflexivity |].
  simpl in Hs. apply andb_prop in Hs as [Hc Hs].
  simpl. rewrite Hc. now rewrite IH.
Qed.

Lemma rstrip_all_digits (s : string) : all_digits s = true -> rstrip s = s.
Proof.
  induction s as [|c s IH]; intros Hs; [reflexivity |].
  simpl in Hs. apply andb_prop in Hs as [Hc Hs].
  simpl. rewrite (IH Hs). rewrite (digit_not_space c Hc).
  destruct s; reflexivity.
Qed.

Lemma strip_all_digits (s : string) : all_digits s = true -> strip s = s.
Proof.
  intros Hs. unfold strip. rewrite rstrip_all_digits by exact Hs.
  destruct s as [|c s]; [reflexivity |].
  simpl in Hs. apply andb_prop in Hs as [Hc _].
  now apply lstrip_head, digit_not_space.
Qed.

(** *** Splitting at blank lines *)

Lemma re_split_go_char (c : ascii) (s piece : string) (skipping : bool) :
  Ascii.eqb c nl = false ->
  re_split_go (String c s) piece skipping
  = re_split_go s (piece ++ String c "") false.
Proof.
  intros Hc. simpl. rewrite Hc. destruct skipping; [reflexivity |].
  destruct s; reflexivity.
Qed.

Lemma re_split_go_line (l rest piece : string) :
  one_line l = true ->
  re_split_go (l ++ rest) piece false = re_split_go rest (piece ++ l) false.
Proof.
  revert piece. induction l as [|c l IH]; intros piece Hl.
  - now rewrite append_nil_l, append_nil_r.
  - simpl in Hl. apply andb_prop in Hl as [Hc Hl].
    apply negb_true_iff in Hc.
    rewrite append_cons, re_split_go_char by exact Hc.
    rewrite IH by exact Hl. now rewrite append_assoc.
Qed.

Lemma re_split_go_single_nl (c : ascii) (rest piece : string) :
  Ascii.eqb c nl = false ->
  re_split_go (String nl (String c rest)) piece false
  = re_split_go (String c rest) (piece ++ String nl "") false.
Proof.
  intros Hc. cbn [re_split_go]. rewrite Hc.
  rewrite andb_false_r. reflexivity.
Qed.

Lemma re_split_go_feeds (k : nat) (rest piece : string) :
  re_split_go (line_feeds k ++ rest) piece true = re_split_go rest piece true.
Proof.
  induction k as [|k IH]; [reflexivity |].
  cbn [line_feeds]. rewrite append_cons. cbn [re_split_go].
  change (Ascii.eqb nl nl) with true. cbv iota. exact IH.
Qed.

Lemma re_split_go_gap (k : nat) (c : ascii) (rest piece : string) :
  Ascii.eqb c nl = false ->
  re_split_go (line_feeds (S (S k)) ++ String c rest) piece false
  = piece :: re_split_go (String c rest) "" false.
Proof.
  intros Hc.
  rewrite (re_split_go_char c rest "" false Hc).
  rewrite <- (re_split_go_char c rest "" true Hc).
  cbn [line_feeds]. rewrite !append_cons.
  remember (line_feeds k ++ String c rest) as tail eqn:Etail.
  cbn [re_split_go]. change (Ascii.eqb nl nl) with true. cbn [andb].
  cbv iota. subst tail. now rewrite re_split_go_feeds.
Qed.

End PyFacts.

(** ** Facts about well-formed files *)

Module SrtFacts.
Import Py PyFacts.

Lemma join_nl_cons (l l' : string) (ls : list string) :
  join_nl (l :: l' :: ls) = l ++ String nl (join_nl (l' :: ls)).
Proof. reflexivity. Qed.

Lemma render_file_cons (lines : list string) (gap : nat)
    (more : list (list string * nat)) :
  render_file ((lines, gap) :: more)
  = join_nl lines ++ line_feeds gap ++ render_file more.
Proof. reflexivity. Qed.

Lemma wf_block_inv (lines : list string) :
  wf_block lines = true ->
  exists l0 l1 l2 rest,
    lines = l0 :: l1 :: l2 :: rest
    /\ all_digits l0 = true /\ non_empty l0 = true
    /\ trimmed l1 = true
    /\ forallb one_line lines = true
    /\ forallb non_empty lines = true.
Proof.
  unfold wf_block. intros Hwf. apply andb_prop in Hwf as [Hall Hshape].
  destruct lines as [|l0 [|l1 [|l2 rest]]]; try discriminate.
  apply andb_prop in Hshape as [Hd Ht].
  exists l0, l1, l2, rest. repeat split; try assumption.
  - simpl in Hall. apply andb_prop in Hall as [H0 _].
    now apply andb_prop in H0 as [H0 _].
  - clear -Hall. induction (l0 :: l1 :: l2 :: rest) as [|l ls IH];
      [reflexivity |].
    simpl in Hall |- *. apply andb_prop in Hall as [Hl Hall].
    apply andb_prop in Hl as [_ Hl]. now rewrite Hl, IH.
  - clear -Hall. induction (l0 :: l1 :: l2 :: rest) as [|l ls IH];
      [reflexivity |].
    simpl in Hall |- *. apply andb_prop in Hall as [Hl Hall].
    apply andb_prop in Hl as [Hl _]. now rewrite Hl, IH.
Qed.

(** A block starts with a digit. *)
Lemma block_head (lines : list string) (tail : string) :
  wf_block lines = true ->
  exists c r, join_nl lines ++ tail = String c r /\ is_digit c = true.
Proof.
  intros Hwf.
  destruct (wf_block_inv lines Hwf)
    as (l0 & l1 & l2 & rest & -> & Hd & Hne & _).
  destruct l0 as [|c l0]; [discriminate |].
  simpl in Hd. apply andb_prop in Hd as [Hc _].
  rewrite join_nl_cons, !append_cons. eauto.
Qed.

Lemma wf_file_cons (lines : list string) (gap : nat)
    (block : list string * nat) (more : list (list string * nat)) :
  wf_file ((lines, gap) :: block :: more) = true ->
  wf_block lines = true /\ (exists k, gap = S (S k))
  /\ wf_file (block :: more) = true.
Proof.
  intros Hwf.
  change (wf_block lines && (2 <=? gap)%nat && wf_file (block :: more)
          = true) in Hwf.
  apply andb_prop in Hwf as [Hwf Hmore].
  apply andb_prop in Hwf as [Hblock Hgap].
  apply Nat.leb_le in Hgap.
  repeat split; try assumption.
  exists (gap - 2)%nat. lia.
Qed.

Lemma wf_file_last (lines : list string) (gap : nat) :
  wf_file [(lines, gap)] = true ->
  wf_block lines = true
  /\ exists line, last lines = Some line /\ rstrip line = line.
Proof.
  simpl. intros Hwf. apply andb_prop in Hwf as [Hblock Hlast].
  split; [assumption |].
  destruct (last lines) as [line|]; [| discriminate].
  exists line. split; [reflexivity |]. now apply String.eqb_eq.
Qed.

Lemma wf_file_head (block : list string * nat)
    (more : list (list string * nat)) :
  wf_file (block :: more) = true -> wf_block block.1 = true.
Proof.
  destruct block as [lines gap]. destruct more as [|block' more]; intros Hwf.
  - now apply wf_file_last in Hwf as [Hwf _].
  - now apply wf_file_cons in Hwf as [Hwf _].
Qed.

Lemma render_file_head (block : list string * nat)
    (more : list (list string * nat)) :
  wf_file (block :: more) = true ->
  exists c r,
    render_file (without_trailing_feeds (block :: more)) = String c r
    /\ is_digit c = true.
Proof.
  intros Hwf. apply wf_file_head in Hwf.
  destruct block as [lines gap]. simpl in Hwf.
  destruct more as [|block' more]; cbn [without_trailing_feeds render_file];
    now apply block_head.
Qed.

(** *** Stripping a file *)

Lemma rstrip_join (lines : list string) (line : string) :
  last lines = Some line -> rstrip line = line -> line <> "" ->
  rstrip (join_nl lines) = join_nl lines /\ join_nl lines <> "".
Proof.
  intros Hlast Hline Hne. induction lines as [|l lines IH]; [discriminate |].
  destruct lines as [|l' lines].
  - simpl in Hlast. injection Hlast as ->. now split.
  - destruct (IH Hlast) as [Hr Hj]. rewrite join_nl_cons. split.
    + rewrite rstrip_app; rewrite rstrip_cons; rewrite Hr; try assumption;
        [reflexivity | discriminate].
    + destruct l; discriminate.
Qed.

Lemma last_non_empty (lines : list string) (line : string) :
  forallb non_empty lines = true -> last lines = Some line -> line <> "".
Proof.
  intros Hall Hlast. induction lines as [|l lines IH]; [discriminate |].
  simpl in Hall. apply andb_prop in Hall as [Hl Hall].
  destruct lines as [|l' lines].
  - simpl in Hlast. injection Hlast as ->. destruct line; discriminate.
  - now apply IH.
Qed.

Lemma rstrip_render_file (blocks : list (list string * nat)) :
  wf_file blocks = true ->
  rstrip (render_file blocks) = render_file (without_trailing_feeds blocks).
Proof.
  induction blocks as [|[lines gap] more IH]; intros Hwf; [reflexivity |].
  destruct more as [|block more].
  - apply wf_file_last in Hwf as (Hblock & line & Hlast & Hline).
    destruct (wf_block_inv lines Hblock) as (_ & _ & _ & _ & _ & _ & _ & _ & _ & Hne).
    destruct (rstrip_join lines line Hlast Hline) as [Hr _];
      [now apply last_non_empty with lines |].
    cbn [without_trailing_feeds render_file line_feeds].
    rewrite !append_nil_r, rstrip_app_blank; [assumption |].
    apply rstrip_line_feeds.
  - pose proof Hwf as Hwf'.
    apply wf_file_cons in Hwf as (Hblock & [k ->] & Hmore).
    destruct (render_file_head block more Hmore) as (c & r & Hhead & _).
    specialize (IH Hmore).
    change (without_trailing_feeds ((lines, S (S k)) :: block :: more))
      with ((lines, S (S k)) :: without_trailing_feeds (block :: more)).
    rewrite !render_file_cons.
    assert (Hne : rstrip (render_file (block :: more)) <> "")
      by (rewrite IH, Hhead; discriminate).
    assert (Hne' : rstrip (line_feeds (S (S k)) ++ render_file (block :: more))
                   <> "").
    { rewrite rstrip_app by assumption. rewrite IH, Hhead.
      destruct (line_feeds (S (S k))); discriminate. }
    rewrite (rstrip_app _ _ Hne'), (rstrip_app _ _ Hne). now rewrite IH.
Qed.

Lemma strip_render_file (blocks : list (list string * nat)) :
  wf_file blocks = true ->
  strip (render_file blocks) = render_file (without_trailing_feeds blocks).
Proof.
  intros Hwf. unfold strip. rewrite rstrip_render_file by assumption.
  destruct blocks as [|block more]; [reflexivity |].
  destruct (render_file_head block more Hwf) as (c & r & -> & Hc).
  now apply lstrip_head, digit_not_space.
Qed.

(** *** Splitting a file into its blocks *)

Lemma re_split_go_block (lines : list string) (rest piece : string) :
  lines <> [] ->
  forallb one_line lines = true ->
  forallb non_empty lines = true ->
  re_split_go (join_nl lines ++ rest) piece false
  = re_split_go rest (piece ++ join_nl lines) false.
Proof.
  revert piece.
  induction lines as [|l lines IH]; intros piece Hne H1 H2; [contradiction |].
  simpl in H1, H2.
  apply andb_prop in H1 as [Hl H1]. apply andb_prop in H2 as [_ H2].
  destruct lines as [|l' lines].
  - now apply re_split_go_line.
  - rewrite join_nl_cons, append_assoc, append_cons.
    rewrite re_split_go_line by exact Hl.
    assert (Hhead : exists c r,
               join_nl (l' :: lines) ++ rest = String c r
               /\ Ascii.eqb c nl = false).
    { simpl in H1, H2.
      apply andb_prop in H1 as [Hl' _]. apply andb_prop in H2 as [Hn' _].
      destruct l' as [|c l']; [discriminate |].
      simpl in Hl'. apply andb_prop in Hl' as [Hc _].
      apply negb_true_iff in Hc. exists c.
      destruct lines as [|l'' lines].
      - simpl. rewrite append_cons. eauto.
      - rewrite join_nl_cons, !append_cons. eauto. }
    destruct Hhead as (c & r & Hhead & Hc).
    rewrite Hhead, re_split_go_single_nl by exact Hc.
    rewrite <- Hhead, IH by (assumption || discriminate).
    now rewrite !append_assoc, append_cons.
Qed.

Lemma re_split_go_file (blocks : list (list string * nat)) (piece : string) :
  wf_file blocks = true ->
  re_split_go (render_file (without_trailing_feeds blocks)) piece false
  = match blocks with
    | [] => [piece]
    | (lines, _) :: more =>
        (piece ++ join_nl lines) :: map (fun block => join_nl block.1) more
    end.
Proof.
  revert piece.
  induction blocks as [|[lines gap] more IH]; intros piece Hwf;
    [reflexivity |].
  pose proof (wf_file_head _ _ Hwf) as Hblock. simpl in Hblock.
  destruct (wf_block_inv lines Hblock)
    as (l0 & l1 & l2 & rest & Hlines & _ & _ & _ & H1 & H2).
  assert (Hne : lines <> []) by (rewrite Hlines; discriminate).
  destruct more as [|block more].
  - cbn [without_trailing_feeds]. rewrite render_file_cons.
    rewrite re_split_go_block by assumption. reflexivity.
  - apply wf_file_cons in Hwf as (_ & [k ->] & Hmore).
    change (without_trailing_feeds ((lines, S (S k)) :: block :: more))
      with ((lines, S (S k)) :: without_trailing_feeds (block :: more)).
    rewrite render_file_cons.
    rewrite re_split_go_block by assumption.
    destruct (render_file_head block more Hmore) as (c & r & Hhead & Hc).
    rewrite Hhead, re_split_go_gap by now apply digit_not_nl.
    rewrite <- Hhead, IH by assumption.
    destruct block as [lines' gap']. now rewrite append_nil_l.
Qed.

(** *** Parsing a block and a file *)

Lemma parse_block_wf (lines : list string) :
  wf_block lines = true ->
  parse_block (join_nl lines) = Some (block_record lines).
Proof.
  intros Hwf.
  destruct (wf_block_inv lines Hwf)
    as (l0 & l1 & l2 & rest & -> & Hd & _ & Ht & H1 & _).
  unfold parse_block. rewrite split_join by (assumption || discriminate).
  unfold block_record. cbn [nth drop].
  rewrite strip_all_digits, sub_non_digits_all_digits by assumption.
  apply String.eqb_eq in Ht. now rewrite Ht.
Qed.

Lemma wf_file_blocks (blocks : list (list string * nat)) :
  wf_file blocks = true ->
  Forall (fun block => wf_block block.1 = true) blocks.
Proof.
  induction blocks as [|block more IH]; intros Hwf; [constructor |].
  constructor; [now apply wf_file_head with more |].
  destruct more as [|block' more]; [constructor |].
  destruct block as [lines gap].
  apply wf_file_cons in Hwf as (_ & _ & Hmore). now apply IH.
Qed.

Lemma omap_parse_block (blocks : list (list string * nat)) :
  Forall (fun block => wf_block block.1 = true) blocks ->
  omap parse_block (map (fun block => join_nl block.1) blocks)
  = map (fun block => block_record block.1) blocks.
Proof.
  induction 1 as [|block more Hblock _ IH]; [reflexivity |].
  cbn [map omap]. unfold list_omap in *. cbn.
  rewrite parse_block_wf by assumption. now rewrite <- IH.
Qed.

Lemma parse_srt_render_file (blocks : list (list string * nat)) :
  wf_file blocks = true ->
  parse_srt (render_file blocks)
  = map (fun block => block_record block.1) blocks.
Proof.
  intros Hwf. unfold parse_srt, re_split_blank_lines.
  rewrite strip_render_file, re_split_go_file by assumption.
  destruct blocks as [|[lines gap] more]; [reflexivity |].
  rewrite append_nil_l.
  exact (omap_parse_block ((lines, gap) :: more) (wf_file_blocks _ Hwf)).
Qed.

(** *** Writing the records of a file *)

Lemma write_srt_cons (sub : Sub) (subtitles : list Sub) :
  write_srt (sub :: subtitles)
  = index sub ++ lf ++ timestamp sub ++ lf
    ++ translated_text sub ++ lf ++ lf ++ write_srt subtitles.
Proof. reflexivity. Qed.

Lemma write_block_record (lines : list string) (out : string) :
  wf_block lines = true ->
  let sub := keep_source (block_record lines) in
  index sub ++ lf ++ timestamp sub ++ lf
  ++ translated_text sub ++ lf ++ lf ++ out
  = join_nl lines ++ line_feeds 2 ++ out.
Proof.
  intros Hwf.
  destruct (wf_block_inv lines Hwf) as (l0 & l1 & l2 & rest & -> & _).
  cbn [keep_source block_record index timestamp translated_text text nth
       drop line_feeds].
  rewrite !join_nl_cons. unfold lf.
  repeat first [rewrite append_assoc | rewrite append_cons
               | rewrite append_nil_l].
  reflexivity.
Qed.

Lemma write_srt_blocks (blocks : list (list string * nat)) :
  Forall (fun block => wf_block block.1 = true) blocks ->
  write_srt (map keep_source
               (map (fun block => block_record block.1) blocks))
  = normalised_file blocks.
Proof.
  unfold normalised_file.
  induction 1 as [|[lines gap] more Hblock _ IH]; [reflexivity |].
  cbn [map]. rewrite write_srt_cons, render_file_cons, IH.
  now apply write_block_record.
Qed.

Lemma wf_file_normalised (blocks : list (list string * nat)) :
  wf_file blocks = true ->
  wf_file (map (fun '(lines, _) => (lines, 2%nat)) blocks) = true.
Proof.
  induction blocks as [|[lines gap] more IH]; intros Hwf; [reflexivity |].
  destruct more as [|[lines' gap'] more]; [exact Hwf |].
  apply wf_file_cons in Hwf as (Hblock & _ & Hmore).
  specialize (IH Hmore). cbn [map] in IH |- *.
  change (wf_block lines && (2 <=? 2)%nat
          && wf_file ((lines', 2%nat)
                        :: map (fun '(lines, _) => (lines, 2%nat)) more)
          = true).
  now rewrite Hblock, IH.
Qed.

Lemma block_records_normalised (blocks : list (list string * nat)) :
  map (fun block => block_record block.1)
    (map (fun '(lines, _) => (lines, 2%nat)) blocks)
  = map (fun block => block_record block.1) blocks.
Proof.
  induction blocks as [|[lines gap] more IH]; [reflexivity |].
  cbn [map]. now rewrite IH.
Qed.

(** *** The text of a record is never empty *)

Lemma ends_nl_cons (c c' : ascii) (s : string) :
  ends_nl (String c (String c' s)) = ends_nl (String c' s).
Proof. reflexivity. Qed.

Lemma ends_nl_snoc (piece : string) (c : ascii) :
  ends_nl (piece ++ String c "") = Ascii.eqb c nl.
Proof.
  induction piece as [|x piece IH]; [reflexivity |].
  rewrite append_cons. destruct piece as [|y piece]; [exact IH |].
  rewrite append_cons in IH |- *. now rewrite ends_nl_cons.
Qed.

Lemma ends_nl_rstrip (s : string) : ends_nl (rstrip s) = false.
Proof.
  induction s as [|c s IH]; [reflexivity |].
  cbn [rstrip]. destruct (rstrip s) as [|x r].
  - destruct (is_space c) eqn:Hc; [reflexivity |].
    cbn. destruct (Ascii.eqb c nl) eqn:Hnl; [| reflexivity].
    apply eqb_nl_true in Hnl. subst c. discriminate.
  - now rewrite ends_nl_cons.
Qed.

Lemma ends_nl_lstrip (s : string) :
  ends_nl s = false -> ends_nl (lstrip s) = false.
Proof.
  induction s as [|c s IH]; intros Hs; [reflexivity |].
  cbn [lstrip]. destruct (is_space c); [| exact Hs].
  apply IH. destruct s; [reflexivity | exact Hs].
Qed.

Lemma ends_nl_strip (s : string) : ends_nl (strip s) = false.
Proof. apply ends_nl_lstrip, ends_nl_rstrip. Qed.

(** No piece of a text that does not end in a line feed ends in one. *)
Lemma re_split_go_ends (s : string) :
  forall (piece : string) (skipping : bool),
    ends_nl s = false ->
    (if skipping then ends_nl piece = false
     else ends_nl piece = true ->
          exists c r, s = String c r /\ Ascii.eqb c nl = false) ->
    Forall (fun block => ends_nl block = false)
      (re_split_go s piece skipping).
Proof.
  induction s as [|c s IH]; intros piece skipping Hs Hpiece.
  - cbn. repeat constructor. destruct skipping; [exact Hpiece |].
    destruct (ends_nl piece); [| reflexivity].
    destruct Hpiece as (? & ? & ? & _); [reflexivity | discriminate].
  - assert (Hs' : ends_nl s = false) by (destruct s; [reflexivity | exact Hs]).
    cbn [re_split_go]. destruct skipping.
    + destruct (Ascii.eqb c nl) eqn:Hc.
      * now apply IH.
      * apply IH; [exact Hs' |]. rewrite ends_nl_snoc, Hc. discriminate.
    + destruct s as [|c' s].
      * repeat constructor. rewrite ends_nl_snoc. exact Hs.
      * destruct (Ascii.eqb c nl) eqn:Hc; cbn [andb].
        -- destruct (Ascii.eqb c' nl) eqn:Hc'.
           ++ constructor; [| now apply IH].
              destruct (ends_nl piece); [| reflexivity].
              destruct Hpiece as (x & r & [= <- _] & Hx); [reflexivity |].
              congruence.
           ++ apply IH; [exact Hs' |]. intros _. eauto.
        -- apply IH; [exact Hs' |]. rewrite ends_nl_snoc, Hc. discriminate.
Qed.

Lemma split_nl_not_nil (s : string) : split_nl s <> [].
Proof.
  destruct s as [|c s]; [discriminate |]. cbn.
  destruct (Ascii.eqb c nl); [discriminate |].
  destruct (split_nl s); discriminate.
Qed.

(** The last line of a text that does not end in a line feed is not
    empty, unless the text is. *)
Lemma split_nl_last (s : string) :
  s <> "" -> ends_nl s = false -> last (split_nl s) <> Some "".
Proof.
  induction s as [|c s IH]; intros Hne Hs; [contradiction |].
  assert (Hs' : ends_nl s = false) by (destruct s; [reflexivity | exact Hs]).
  cbn [split_nl]. destruct (Ascii.eqb c nl) eqn:Hc.
  - destruct s as [|c' s]; [cbn in Hs; congruence |].
    pose proof (split_nl_not_nil (String c' s)) as Hnil.
    destruct (split_nl (String c' s)) as [|h t] eqn:Hsplit; [contradiction |].
    change (last ("" :: h :: t)) with (last (h :: t)).
    apply IH; [discriminate | exact Hs'].
  - destruct s as [|c' s]; [cbn; discriminate |].
    pose proof (split_nl_not_nil (String c' s)) as Hnil.
    destruct (split_nl (String c' s)) as [|h t] eqn:Hsplit; [contradiction |].
    destruct t as [|h' t]; [cbn; discriminate |].
    change (last (String c h :: h' :: t)) with (last (h' :: t)).
    change (last (h' :: t)) with (last (h :: h' :: t)).
    apply IH; [discriminate | exact Hs'].
Qed.

Lemma parse_block_text (block : string) (sub : Sub) :
  ends_nl block = false -> parse_block block = Some sub -> text sub <> "".
Proof.
  intros Hend. unfold parse_block.
  destruct (split_nl block) as [|l0 [|l1 [|l2 rest]]] eqn:Hsplit;
    try discriminate.
  intros [= <-]. cbn [text].
  destruct rest as [|l3 rest].
  - intros ->. apply (split_nl_last block); [| exact Hend |].
    + intros ->. discriminate.
    + now rewrite Hsplit.
  - destruct l2; discriminate.
Qed.

Lemma parse_srt_text (content : string) (sub : Sub) :
  sub ∈ parse_srt content -> text sub <> "".
Proof.
  unfold parse_srt, re_split_blank_lines. intros Hin.
  apply list_elem_of_omap in Hin as (block & Hblock & Hparse).
  apply parse_block_text with block; [| exact Hparse].
  pose proof (re_split_go_ends (strip content) "" false
                (ends_nl_strip content)) as Hall.
  rewrite Forall_forall in Hall. apply Hall; [| exact Hblock].
  discriminate.
Qed.

End SrtFacts.

(** ** Facts about the translator *)

Section TranslatorFacts.
Context {B : Type} `{Backend B}.

Lemma missing_ids_nil (batch_ids : list string) (m : gmap string string) :
  missing_ids batch_ids m = [] <-> forall id, id ∈ batch_ids -> is_Some (m !! id).
Proof.
  unfold missing_ids. induction batch_ids as [|bid ids IH].
  - split; [| reflexivity]. intros _ id Hin. inversion Hin.
  - rewrite filter_cons. destruct (decide (m !! bid = None)) as [Hnone|Hsome].
    + split; [discriminate |]. intros Hall.
      destruct (Hall bid) as [x Hx]; [constructor | congruence].
    + rewrite IH. split.
      * intros Hall id Hin. apply elem_of_cons in Hin as [->|Hin];
          [| now apply Hall].
        destruct (m !! bid); [eauto | contradiction].
      * intros Hall id Hin. apply Hall. now constructor.
Qed.

Lemma missing_ids_absent (batch_ids : list string) (m : gmap string string)
    (id : string) :
  id ∈ batch_ids -> m !! id = None -> missing_ids batch_ids m <> [].
Proof.
  intros Hin Hnone Hnil.
  destruct (proj1 (missing_ids_nil batch_ids m) Hnil id Hin). congruence.
Qed.

Section Attempts.
Variables (batch_ids : list string) (args : Args).
Variables (system_prompt user_input : string) (depth : nat).

Lemma attempts_some (remaining : nat) (st st1 : B)
    (m : gmap string string) (log : list event) :
  attempts remaining batch_ids args system_prompt user_input depth st
  = (Some m, st1, log) ->
  missing_ids batch_ids m = [].
Proof.
  revert st log. induction remaining as [|n IH]; intros st log;
    [discriminate |].
  cbn [attempts].
  destruct (chat st (model args) system_prompt user_input)
    as [[content|message] st0].
  - destruct (missing_ids batch_ids (parse_llm_response content)) eqn:Hm.
    + intros [= <- <- <-]. exact Hm.
    + apply IH.
  - destruct (attempts n batch_ids args system_prompt user_input depth st0)
      as [[found st2] log'] eqn:Hrec.
    intros [= -> -> <-]. now apply IH with st0 log'.
Qed.

Lemma attempts_none (remaining : nat) (st : B) :
  every_attempt_fails remaining batch_ids args system_prompt user_input st
  = true
  <-> (attempts remaining batch_ids args system_prompt user_input depth
         st).1.1 = None.
Proof.
  revert st. induction remaining as [|n IH]; intros st; [easy |].
  cbn [attempts every_attempt_fails].
  destruct (chat st (model args) system_prompt user_input)
    as [[content|message] st0].
  - destruct (missing_ids batch_ids (parse_llm_response content)).
    + easy.
    + apply IH.
  - specialize (IH st0).
    destruct (attempts n batch_ids args system_prompt user_input depth st0)
      as [[found st2] log']. exact IH.
Qed.

Lemma attempts_log (remaining : nat) (st : B) :
  Forall (fun e => event_depth e = depth)
    (attempts remaining batch_ids args system_prompt user_input depth
       st).2.
Proof.
  revert st. induction remaining as [|n IH]; intros st; [constructor |].
  cbn [attempts].
  destruct (chat st (model args) system_prompt user_input)
    as [[content|message] st0].
  - destruct (missing_ids batch_ids (parse_llm_response content));
      [constructor | apply IH].
  - specialize (IH st0).
    destruct (attempts n batch_ids args system_prompt user_input depth st0)
      as [[found st2] log']. now constructor.
Qed.

(** An attempt whose reply lacks an id is not a success: the loop goes
    on to the next attempt. *)
Lemma attempts_incomplete (remaining : nat) (st st1 : B)
    (content : string) :
  chat st (model args) system_prompt user_input = (Reply content, st1) ->
  missing_ids batch_ids (parse_llm_response content) <> [] ->
  attempts (S remaining) batch_ids args system_prompt user_input depth st
  = attempts remaining batch_ids args system_prompt user_input depth st1.
Proof.
  intros Hchat Hmiss. cbn [attempts]. rewrite Hchat.
  destruct (missing_ids batch_ids (parse_llm_response content));
    [contradiction | reflexivity].
Qed.

Lemma attempts_complete (remaining : nat) (st st1 : B)
    (content : string) :
  chat st (model args) system_prompt user_input = (Reply content, st1) ->
  missing_ids batch_ids (parse_llm_response content) = [] ->
  attempts (S remaining) batch_ids args system_prompt user_input depth st
  = (Some (parse_llm_response content), st1, []).
Proof.
  intros Hchat Hmiss. cbn [attempts]. now rewrite Hchat, Hmiss.
Qed.
End Attempts.

(** *** The exits of [process_batch_recursive] *)

Lemma retries_exhausted_attempts (batch : list Sub) (args : Args)
    (depth : nat) (st : B) :
  retries_exhausted batch args st = true
  <-> exists st1 log, attempts_of batch args depth st = (None, st1, log).
Proof.
  unfold retries_exhausted, attempts_of. rewrite (attempts_none _ _ _ _ depth).
  destruct (attempts _ _ _ _ _ _ _) as [[found st1] log]. cbn. split.
  - intros ->. eauto.
  - now intros (? & ? & [= -> _ _]).
Qed.

Lemma process_batch_recursive_success (fuel : nat) (batch : list Sub)
    (args : Args) (depth : nat) (st st1 : B) (m : gmap string string)
    (log : list event) :
  attempts_of batch args depth st = (Some m, st1, log) ->
  process_batch_recursive (S fuel) batch args depth st = Ok (m, st1, log).
Proof.
  unfold attempts_of. intros Hatt. cbn [process_batch_recursive].
  cbn [generate_prompt fst snd] in Hatt |- *. now rewrite Hatt.
Qed.

Lemma process_batch_recursive_single (fuel : nat) (sub : Sub) (args : Args)
    (depth : nat) (st st1 : B) (log : list event) :
  attempts_of [sub] args depth st = (None, st1, log) ->
  process_batch_recursive (S fuel) [sub] args depth st
  = Ok (∅, st1, (log ++ [LogFailed depth (index sub)])%list).
Proof.
  unfold attempts_of. intros Hatt. cbn [process_batch_recursive].
  cbn [generate_prompt fst snd] in Hatt |- *. now rewrite Hatt.
Qed.

Lemma process_batch_recursive_bisect (fuel : nat) (batch : list Sub)
    (args : Args) (depth : nat) (st st1 : B) (log : list event) :
  attempts_of batch args depth st = (None, st1, log) ->
  (2 <= length batch)%nat ->
  process_batch_recursive (S fuel) batch args depth st
  = '(results_left, st2, log_left) ←
      process_batch_recursive fuel (take (length batch / 2) batch) args
        (S depth) st1;
    '(results_right, st3, log_right) ←
      process_batch_recursive fuel (drop (length batch / 2) batch) args
        (S depth) st2;
    Ok (results_right ∪ results_left, st3,
        (log
         ++ LogSplit depth (length batch)
              (length (take (length batch / 2) batch))
              (length (drop (length batch / 2) batch))
            :: log_left ++ log_right)%list).
Proof.
  unfold attempts_of. intros Hatt Hlen. cbn [process_batch_recursive].
  cbn [generate_prompt fst snd] in Hatt |- *. rewrite Hatt.
  destruct (length batch <=? 1)%nat eqn:Hle; [| reflexivity].
  apply Nat.leb_le in Hle. lia.
Qed.

(** *** Termination and the depth of the recursion *)

Lemma halves_bound (n k : nat) :
  (2 <= n <= 2 ^ S k)%nat ->
  (1 <= n / 2 <= 2 ^ k)%nat /\ (1 <= n - n / 2 <= 2 ^ k)%nat.
Proof.
  rewrite Nat.pow_succ_r'. intros Hn.
  pose proof (Nat.div_mod_eq n 2) as Hdiv.
  pose proof (Nat.mod_upper_bound n 2) as Hmod. lia.
Qed.

Lemma attempts_of_log (batch : list Sub) (args : Args) (depth : nat)
    (st st1 : B) (found : option (gmap string string)) (log : list event) :
  attempts_of batch args depth st = (found, st1, log) ->
  Forall (fun e => event_depth e = depth) log.
Proof.
  unfold attempts_of. intros Hatt.
  pose proof (attempts_log (map index batch) args
                (generate_prompt batch (lang args)).1
                (generate_prompt batch (lang args)).2 depth
                (Z.to_nat (retries args)) st) as Hlog.
  now rewrite Hatt in Hlog.
Qed.

(** With [S fuel] units a batch of up to [2 ^ fuel] records is
    translated, and no logged line is indented deeper than [fuel] levels
    below the call. *)
Lemma process_batch_recursive_total (fuel : nat) :
  forall (batch : list Sub) (args : Args) (depth : nat) (st : B),
    (1 <= length batch <= 2 ^ fuel)%nat ->
    exists m st' log,
      process_batch_recursive (S fuel) batch args depth st = Ok (m, st', log)
      /\ Forall (fun e => (depth <= event_depth e <= depth + fuel)%nat) log.
Proof.
  induction fuel as [|fuel IH]; intros batch args depth st Hlen;
    destruct (attempts_of batch args depth st) as [[[m|] st1] log] eqn:Hatt;
    pose proof (attempts_of_log _ _ _ _ _ _ _ Hatt) as Hlog.
  - exists m, st1, log. split;
      [now apply process_batch_recursive_success |].
    eapply Forall_impl; [exact Hlog |]. cbn. intros e ->. lia.
  - destruct batch as [|sub [|sub' batch]]; cbn in Hlen; try lia.
    exists ∅, st1, (log ++ [LogFailed depth (index sub)])%list. split;
      [now apply process_batch_recursive_single |].
    apply Forall_app. split.
    + eapply Forall_impl; [exact Hlog |]. cbn. intros e ->. lia.
    + repeat constructor; cbn; lia.
  - exists m, st1, log. split;
      [now apply process_batch_recursive_success |].
    eapply Forall_impl; [exact Hlog |]. cbn. intros e ->. lia.
  - destruct (decide (length batch = 1%nat)) as [Hone|Hmore].
    + destruct batch as [|sub [|sub' batch]]; try discriminate.
      exists ∅, st1, (log ++ [LogFailed depth (index sub)])%list. split;
        [now apply process_batch_recursive_single |].
      apply Forall_app. split.
      * eapply Forall_impl; [exact Hlog |]. cbn. intros e ->. lia.
      * repeat constructor; cbn; lia.
    + assert (Hn : (2 <= length batch <= 2 ^ S fuel)%nat) by lia.
      destruct (halves_bound _ _ Hn) as [Hleft Hright].
      rewrite (process_batch_recursive_bisect _ _ _ _ _ _ _ Hatt)
        by lia.
      destruct (IH (take (length batch / 2) batch) args (S depth) st1)
        as (ml & st2 & ll & Hl & Hll).
      { rewrite length_take. lia. }
      destruct (IH (drop (length batch / 2) batch) args (S depth) st2)
        as (mr & st3 & lr & Hr & Hlr).
      { rewrite length_drop. lia. }
      rewrite Hl. cbn [mbind result_mbind result_bind].
      rewrite Hr. cbn [mbind result_mbind result_bind].
      eexists _, _, _. split; [reflexivity |].
      apply Forall_app. split;
        [eapply Forall_impl; [exact Hlog |]; cbn; intros e ->; lia |].
      constructor; [cbn; lia |].
      apply Forall_app. split;
        (eapply Forall_impl; [eassumption |]; cbn; intros e He; lia).
Qed.

(** More fuel does not change a result. *)
Lemma process_batch_recursive_mono (fuel : nat) :
  forall (fuel' : nat) (batch : list Sub) (args : Args) (depth : nat)
         (st : B) (r : gmap string string * B * list event),
    process_batch_recursive fuel batch args depth st = Ok r ->
    (fuel <= fuel')%nat ->
    process_batch_recursive fuel' batch args depth st = Ok r.
Proof.
  induction fuel as [|fuel IH]; intros fuel' batch args depth st r Hrun Hle;
    [discriminate |].
  destruct fuel' as [|fuel']; [lia |].
  cbn [process_batch_recursive] in Hrun |- *.
  cbn [generate_prompt] in Hrun |- *.
  destruct (attempts _ _ _ _ _ _ _) as [[[m|] st1] log]; [exact Hrun |].
  destruct (length batch <=? 1)%nat; [exact Hrun |].
  destruct (process_batch_recursive fuel (take _ batch) args (S depth) st1)
    as [[[ml st2] ll]| |] eqn:Hl; try discriminate.
  rewrite (IH fuel' _ _ _ _ _ Hl) by lia.
  cbn in Hrun |- *.
  destruct (process_batch_recursive fuel (drop _ batch) args (S depth) st2)
    as [[[mr st3] lr]| |] eqn:Hr; try discriminate.
  rewrite (IH fuel' _ _ _ _ _ Hr) by lia.
  exact Hrun.
Qed.

Lemma process_batch_total (batch : list Sub) (args : Args) (depth : nat)
    (st : B) :
  batch <> [] ->
  exists m st' log, process_batch batch args depth st = Ok (m, st', log).
Proof.
  intros Hne. unfold process_batch.
  destruct (process_batch_recursive_total (length batch) batch args depth st)
    as (m & st' & log & Hrun & _); [| eauto].
  pose proof (Nat.pow_gt_lin_r 2 (length batch)).
  destruct batch; [contradiction | cbn in *; lia].
Qed.

(** Any fuel that covers the batch gives the result of
    [process_batch]. *)
Lemma process_batch_fuel (fuel : nat) (batch : list Sub) (args : Args)
    (depth : nat) (st : B) :
  (1 <= length batch <= 2 ^ fuel)%nat ->
  process_batch_recursive (S fuel) batch args depth st
  = process_batch batch args depth st.
Proof.
  intros Hlen.
  destruct (process_batch_recursive_total fuel batch args depth st Hlen)
    as (m & st' & log & Hrun & _).
  destruct (process_batch_total batch args depth st)
    as (m' & st'' & log' & Hrun'); [destruct batch; cbn in *; [lia | easy] |].
  rewrite Hrun, Hrun'. unfold process_batch in Hrun'.
  apply process_batch_recursive_mono
    with (fuel' := S (Nat.max fuel (length batch))) in Hrun; [| lia].
  apply process_batch_recursive_mono
    with (fuel' := S (Nat.max fuel (length batch))) in Hrun'; [| lia].
  congruence.
Qed.

End TranslatorFacts.

(** ** Facts about the driver *)

Section DriverFacts.
Context {B : Type} `{Backend B}.

Lemma merge_sub_value (m : gmap string string) (sub : Sub) :
  translated_text (merge_sub m sub) = text sub
  \/ m !! index sub = Some (translated_text (merge_sub m sub)).
Proof.
  unfold merge_sub. cbn. case_bool_decide; [now left |].
  destruct (m !! index sub); [now right | now left].
Qed.

Lemma merge_sub_lookup (m : gmap string string) (sub : Sub) (t : string) :
  m !! index sub = Some t -> translated_text (merge_sub m sub) = t.
Proof.
  intros Hm. unfold merge_sub. cbn. case_bool_decide as Hsize.
  - apply map_size_empty_inv in Hsize. subst m.
    now rewrite lookup_empty in Hm.
  - now rewrite Hm.
Qed.

Lemma merge_sub_none (m : gmap string string) (sub : Sub) :
  m !! index sub = None -> merge_sub m sub = keep_source sub.
Proof.
  intros Hm. unfold merge_sub, keep_source. rewrite Hm.
  now case_bool_decide.
Qed.

Lemma merge_sub_idem (m : gmap string string) (sub : Sub) :
  merge_sub m (merge_sub m sub) = merge_sub m sub.
Proof. reflexivity. Qed.

Lemma merge_batch_lookup (m : gmap string string) (batch : list nat)
    (store : list Sub) (pos : nat) :
  merge_batch m batch store !! pos
  = if decide (pos ∈ batch) then merge_sub m <$> store !! pos
    else store !! pos.
Proof.
  unfold merge_batch. revert store.
  induction batch as [|p batch IH]; intros store.
  - cbn. destruct (decide (pos ∈ [])) as [Hin|]; [inversion Hin | easy].
  - cbn [fold_left]. rewrite IH.
    destruct (decide (p = pos)) as [->|Hne].
    + rewrite list_lookup_alter_eq.
      destruct (decide (pos ∈ batch)), (decide (pos ∈ pos :: batch)) as [|Hn];
        try reflexivity.
      * now destruct (store !! pos).
      * exfalso. apply Hn. now constructor.
      * exfalso. apply Hn. now constructor.
    + rewrite list_lookup_alter_ne by assumption.
      destruct (decide (pos ∈ batch)) as [Hin|Hin],
               (decide (pos ∈ p :: batch)) as [Hin'|Hin'];
        try reflexivity.
      * exfalso. apply Hin'. now constructor.
      * apply elem_of_cons in Hin' as [->|]; contradiction.
Qed.

Lemma merge_batch_length (m : gmap string string) (batch : list nat)
    (store : list Sub) :
  length (merge_batch m batch store) = length store.
Proof.
  unfold merge_batch. revert store.
  induction batch as [|p batch IH]; intros store; [reflexivity |].
  cbn [fold_left]. now rewrite IH, length_alter.
Qed.

(** What the loop over the batches leaves in a record: the source fields
    are untouched; the translation is untouched when no batch holds the
    record, and otherwise it is the source text or a value from the
    translator. *)
Lemma translate_batches_inv (args : Args) (batches : list (list nat)) :
  forall (store store' : list Sub) (st st' : B) (log : list event),
    translate_batches batches args store st = Ok (store', st', log) ->
    length store' = length store
    /\ forall pos sub',
        store' !! pos = Some sub' ->
        exists sub,
          store !! pos = Some sub
          /\ index sub' = index sub
          /\ timestamp sub' = timestamp sub
          /\ text sub' = text sub
          /\ (((forall batch, batch ∈ batches -> pos ∉ batch)
               /\ translated_text sub' = translated_text sub)
              \/ translated_text sub' = text sub'
              \/ from_translator args sub').
Proof.
  induction batches as [|batch batches IH]; intros store store' st st' log.
  - intros [= <- <- <-]. split; [reflexivity |].
    intros pos sub' Hpos. exists sub'. repeat split; try assumption.
    left. split; [| reflexivity]. intros batch Hin. inversion Hin.
  - cbn [translate_batches].
    destruct (process_batch (batch_records store batch) args 0 st)
      as [[[m st1] log1]| |] eqn:Hrun; try discriminate.
    cbn [mbind result_mbind result_bind].
    destruct (translate_batches batches args (merge_batch m batch store) st1)
      as [[[store2 st2] log2]| |] eqn:Hrest; try discriminate.
    cbn [mbind result_mbind result_bind]. intros [= <- <- <-].
    destruct (IH _ _ _ _ _ Hrest) as [Hlen Hinv].
    split; [now rewrite Hlen, merge_batch_length |].
    intros pos sub' Hpos.
    destruct (Hinv pos sub' Hpos) as (sub1 & Hsub1 & Hi & Ht & Hx & Hcase).
    rewrite merge_batch_lookup in Hsub1.
    destruct (decide (pos ∈ batch)) as [Hin|Hin].
    + destruct (store !! pos) as [sub|] eqn:Hsub; [| discriminate].
      injection Hsub1 as <-. exists sub. repeat split; try assumption.
      destruct Hcase as [[_ Hsame]|Hcase]; [| now right].
      right.
      destruct (merge_sub_value m sub) as [Hv|Hv];
        [left; rewrite Hsame, Hx; exact Hv |].
      right. exists (batch_records store batch), st, st1, m, log1.
      split; [assumption |]. split.
      * rewrite Hi. change (index (merge_sub m sub)) with (index sub).
        apply list_elem_of_fmap_2.
        apply list_elem_of_omap. exists pos. now split.
      * rewrite Hi, Hsame. exact Hv.
    + exists sub1. repeat split; try assumption.
      destruct Hcase as [[Hout Hsame]|Hcase]; [| now right].
      left. split; [| assumption].
      intros batch' Hin'. apply elem_of_cons in Hin' as [->|Hin'];
        [assumption | now apply Hout].
Qed.

(** With a positive batch size the batches hold every position. *)
Lemma batches_cover (total : nat) (size : Z) (pos : nat) :
  (0 < size)%Z -> (pos < total)%nat ->
  exists starts,
    range_from_zero total size = Ok starts
    /\ exists batch,
        batch ∈ map (fun i => slice_positions total i (Z.to_nat size)) starts
        /\ pos ∈ batch.
Proof.
  intros Hsize Hpos. unfold range_from_zero.
  destruct (size =? 0)%Z eqn:H0; [apply Z.eqb_eq in H0; lia |].
  destruct (size <? 0)%Z eqn:Hneg; [apply Z.ltb_lt in Hneg; lia |].
  set (k := Z.to_nat size). assert (Hk : (0 < k)%nat) by (subst k; lia).
  eexists. split; [reflexivity |].
  pose proof (Nat.div_mod_eq pos k) as Hdiv.
  pose proof (Nat.mod_upper_bound pos k) as Hmod.
  exists (slice_positions total (pos / k * k) k). split.
  - apply list_elem_of_fmap. exists (pos / k * k)%nat. split; [reflexivity |].
    apply list_elem_of_fmap. exists (pos / k)%nat. split; [reflexivity |].
    apply elem_of_seq. split; [lia |]. cbn.
    apply Nat.lt_le_trans with (S (pos / k)); [lia |].
    apply Nat.div_le_lower_bound; nia.
  - unfold slice_positions. apply elem_of_seq. nia.
Qed.

End DriverFacts.

(** ** Facts about the Response Parser *)

Section ParserFacts.

Lemma match_new_block_empty : match_new_block "" = None.
Proof. reflexivity. Qed.

Lemma parse_line_blank (ps : parser_state) (raw : string) :
  Py.strip raw = "" -> parse_line ps raw = ps.
Proof. intros Hraw. unfold parse_line. now rewrite Hraw. Qed.


Lemma parse_line_continuation (ps : parser_state) (raw id : string) :
  Py.strip raw <> "" ->
  match_new_block (Py.strip raw) = None ->
  current_id ps = Some id ->
  parse_line ps raw
  = {| translation_map := translation_map ps;
       current_id := Some id;
       current_text_lines := current_text_lines ps ++ [Py.strip raw] |}.
Proof.
  intros Hne Hm Hid. unfold parse_line. rewrite Hm, Hid.
  destruct (Py.strip raw); [contradiction | reflexivity].
Qed.





End ParserFacts.

(** * The claims *)

Section TranslatorClaims.
Context {B : Type} `{Backend B}.

(** When the retries of a batch of two or more records run out, the
    call is the bisection: both halves are translated, the left one
    first, and their dictionaries are united. *)
Lemma process_batch_bisect (batch : list Sub) (args : Args) (depth : nat)
    (st : B) :
  (2 <= length batch)%nat ->
  retries_exhausted batch args st = true ->
  exists st1 log ml st2 ll mr st3 lr,
    attempts_of batch args depth st = (None, st1, log)
    /\ process_batch (take (length batch / 2) batch) args (S depth) st1
       = Ok (ml, st2, ll)
    /\ process_batch (drop (length batch / 2) batch) args (S depth) st2
       = Ok (mr, st3, lr)
    /\ process_batch batch args depth st
       = Ok (mr ∪ ml, st3,
             (log
              ++ LogSplit depth (length batch) (length batch / 2)
                   (length batch - length batch / 2)
                 :: ll ++ lr)%list).
Proof.
  intros Hlen Hex.
  apply (retries_exhausted_attempts batch args depth st) in Hex
    as (st1 & log & Hatt).
  destruct (length batch) as [|k] eqn:Hn; [lia |].
  assert (Hk : (2 <= S k <= 2 ^ S k)%nat).
  { pose proof (Nat.pow_gt_lin_r 2 (S k)). lia. }
  assert (Hpow : (k < 2 ^ k)%nat) by (apply Nat.pow_gt_lin_r; lia).
  pose proof (Nat.div_mod_eq (S k) 2) as Hdiv.
  pose proof (Nat.mod_upper_bound (S k) 2) as Hmod.
  destruct (process_batch_total (take (S k / 2) batch) args (S depth) st1)
    as (ml & st2 & ll & Hl).
  { intros Hnil. apply (f_equal length) in Hnil.
    rewrite length_take in Hnil. cbn [length] in Hnil. lia. }
  destruct (process_batch_total (drop (S k / 2) batch) args (S depth) st2)
    as (mr & st3 & lr & Hr).
  { intros Hnil. apply (f_equal length) in Hnil.
    rewrite length_drop in Hnil. cbn [length] in Hnil. lia. }
  exists st1, log, ml, st2, ll, mr, st3, lr.
  repeat split; try assumption.
  unfold process_batch at 1. rewrite Hn.
  rewrite (process_batch_recursive_bisect _ _ _ _ _ _ _ Hatt) by lia.
  rewrite Hn.
  rewrite (process_batch_fuel k (take _ batch))
    by (rewrite length_take; lia).
  rewrite Hl. cbn [mbind result_mbind result_bind].
  rewrite (process_batch_fuel k (drop _ batch))
    by (rewrite length_drop; lia).
  rewrite Hr. cbn [mbind result_mbind result_bind].
  rewrite length_take, length_drop, Hn.
  now replace (Nat.min (S k / 2) (S k)) with (S k / 2)%nat by lia.
Qed.

(** C2. The translator leaves through its success exit only with a
    dictionary that holds every id of the batch; an attempt whose reply
    lacks an id of the batch is not accepted and the loop goes on; and
    when the retries of a batch of two or more records run out, the
    result is that of the bisection, not the incomplete dictionary. *)
Theorem C2_success_requires_every_id (batch : list Sub) (args : Args)
    (depth : nat) (st : B) :
  (forall st1 m log,
      attempts_of batch args depth st = (Some m, st1, log) ->
      (forall id, id ∈ map index batch -> is_Some (m !! id))
      /\ forall fuel,
          process_batch_recursive (S fuel) batch args depth st
          = Ok (m, st1, log))
  /\ (forall remaining content st1 id,
         chat st (model args) (generate_prompt batch (lang args)).1
           (generate_prompt batch (lang args)).2
         = (Reply content, st1) ->
         id ∈ map index batch ->
         parse_llm_response content !! id = None ->
         attempts (S remaining) (map index batch) args
           (generate_prompt batch (lang args)).1
           (generate_prompt batch (lang args)).2 depth st
         = attempts remaining (map index batch) args
             (generate_prompt batch (lang args)).1
             (generate_prompt batch (lang args)).2 depth st1)
  /\ ((2 <= length batch)%nat ->
      retries_exhausted batch args st = true ->
      exists st1 log ml st2 ll mr st3 lr,
        attempts_of batch args depth st = (None, st1, log)
        /\ process_batch (take (length batch / 2) batch) args (S depth) st1
           = Ok (ml, st2, ll)
        /\ process_batch (drop (length batch / 2) batch) args (S depth) st2
           = Ok (mr, st3, lr)
        /\ process_batch batch args depth st
           = Ok (mr ∪ ml, st3,
                 (log
                  ++ LogSplit depth (length batch) (length batch / 2)
                       (length batch - length batch / 2)
                     :: ll ++ lr)%list)).
Proof.
  split; [| split].
  - intros st1 m log Hatt. split.
    + apply missing_ids_nil. unfold attempts_of in Hatt.
      eapply attempts_some. exact Hatt.
    + intros fuel. now apply process_batch_recursive_success.
  - intros remaining content st1 id Hchat Hin Hnone.
    apply attempts_incomplete with content; [assumption |].
    now apply missing_ids_absent with id.
  - apply process_batch_bisect.
Qed.

(** C3. When the retries of a batch of [n >= 2] records run out, the
    batch is cut at [n / 2]: the left half is its first [n / 2] records
    and the right half the others; each half is translated with the same
    options, the left one first, and the result is the union of the two
    dictionaries, in which the right one wins on a shared id. *)
Theorem C3_bisect_at_midpoint (batch : list Sub) (args : Args)
    (depth : nat) (st : B) :
  (2 <= length batch)%nat ->
  retries_exhausted batch args st = true ->
  let n := length batch in
  let left_batch := take (n / 2) batch in
  let right_batch := drop (n / 2) batch in
  length left_batch = (n / 2)%nat
  /\ length right_batch = (n - n / 2)%nat
  /\ (left_batch ++ right_batch)%list = batch
  /\ exists st1 log ml st2 ll mr st3 lr,
      attempts_of batch args depth st = (None, st1, log)
      /\ process_batch left_batch args (S depth) st1 = Ok (ml, st2, ll)
      /\ process_batch right_batch args (S depth) st2 = Ok (mr, st3, lr)
      /\ process_batch batch args depth st
         = Ok (mr ∪ ml, st3,
               (log ++ LogSplit depth n (n / 2) (n - n / 2) :: ll ++ lr)%list)
      /\ forall id,
          (mr ∪ ml) !! id
          = match mr !! id with
            | Some translated => Some translated
            | None => ml !! id
            end.
Proof.
  intros Hlen Hex n left_batch right_batch.
  pose proof (Nat.div_mod_eq n 2) as Hdiv.
  pose proof (Nat.mod_upper_bound n 2) as Hmod.
  subst left_batch right_batch. split; [| split; [| split]].
  - rewrite length_take. fold n. lia.
  - apply length_drop.
  - apply take_drop.
  - destruct (process_batch_bisect batch args depth st Hlen Hex)
      as (st1 & log & ml & st2 & ll & mr & st3 & lr & H1 & H2 & H3 & H4).
    exists st1, log, ml, st2, ll, mr, st3, lr.
    repeat split; try assumption.
    intros id. rewrite lookup_union.
    destruct (mr !! id), (ml !! id); reflexivity.
Qed.

(** C9. For a batch of [n >= 1] records the recursion nests at most
    [ceil (log2 n)] calls below the first one: that much fuel is enough
    for the call to return, and no logged line is indented deeper.  A cut
    gives halves of [n / 2] and [(n + 1) / 2] records, and a batch of one
    record returns with no nested call. *)
Theorem C9_recursion_depth (batch : list Sub) (args : Args) (depth : nat)
    (st : B) :
  (1 <= length batch)%nat ->
  let n := length batch in
  (exists m st' log,
      process_batch_recursive (S (Nat.log2_up n)) batch args depth st
      = Ok (m, st', log)
      /\ Forall (fun e =>
                   (depth <= event_depth e <= depth + Nat.log2_up n)%nat)
           log)
  /\ length (take (n / 2) batch) = (n / 2)%nat
  /\ length (drop (n / 2) batch) = ((n + 1) / 2)%nat
  /\ (n = 1%nat ->
      exists m st' log,
        process_batch_recursive 1 batch args depth st = Ok (m, st', log)).
Proof.
  intros Hlen n.
  pose proof (Nat.div_mod_eq n 2) as Hdiv.
  pose proof (Nat.mod_upper_bound n 2) as Hmod.
  pose proof (Nat.div_mod_eq (n + 1) 2) as Hdiv'.
  pose proof (Nat.mod_upper_bound (n + 1) 2) as Hmod'.
  split; [| split; [| split]].
  - apply process_batch_recursive_total. split; [assumption |].
    apply Nat.log2_log2_up_spec. exact Hlen.
  - rewrite length_take. fold n. lia.
  - rewrite length_drop. fold n. lia.
  - intros Hone.
    destruct (process_batch_recursive_total 0 batch args depth st)
      as (m & st' & log & Hrun & _); [cbn; lia | eauto].
Qed.

End TranslatorClaims.

Section PipelineClaims.
Context {B : Type} `{Backend B}.

(** The driver leaves the source fields of every record as the parser
    built them. *)
Lemma run_pipeline_fields (args : Args) (input_content : string)
    (st st' : B) (subtitles : list Sub) (log : list event) :
  run_pipeline args input_content st = Ok (subtitles, st', log) ->
  map index subtitles = map index (parse_srt input_content)
  /\ map timestamp subtitles = map timestamp (parse_srt input_content)
  /\ map text subtitles = map text (parse_srt input_content).
Proof.
  unfold run_pipeline.
  destruct (range_from_zero _ _) as [starts| |]; try discriminate.
  cbn [mbind result_mbind result_bind]. intros Hrun.
  apply translate_batches_inv in Hrun as [Hlen Hinv].
  assert (Hfield : forall (A : Type) (f : Sub -> A),
             (forall sub sub',
                 index sub' = index sub -> timestamp sub' = timestamp sub ->
                 text sub' = text sub -> f sub' = f sub) ->
             map f subtitles = map f (parse_srt input_content)).
  { intros A f Hf. apply list_eq. intros pos.
    change (map f ?l) with (f <$> l). rewrite !list_lookup_fmap.
    destruct (subtitles !! pos) as [sub'|] eqn:Hsub'.
    - destruct (Hinv pos sub' Hsub') as (sub & -> & Hi & Ht & Hx & _).
      cbn. f_equal. now apply Hf.
    - apply lookup_ge_None in Hsub'. rewrite Hlen in Hsub'.
      apply lookup_ge_None in Hsub'. now rewrite Hsub'. }
  repeat split; apply Hfield; intros; congruence.
Qed.

(** C8, amended.  For every accepted block the timecode of the record is
    line 1 without the white space at its two ends: it is line 1 itself
    when that line has no such white space.  The driver does not change
    it, so the timecodes of the output are those of the parser. *)
Theorem C8_timecode_stripped (content block line0 line1 line2 : string)
    (rest : list string) :
  block ∈ Py.re_split_blank_lines (Py.strip content) ->
  Py.split_nl block = line0 :: line1 :: line2 :: rest ->
  exists sub,
    parse_block block = Some sub
    /\ sub ∈ parse_srt content
    /\ timestamp sub = Py.strip line1
    /\ (trimmed line1 = true -> timestamp sub = line1)
    /\ (forall m, timestamp (merge_sub m sub) = Py.strip line1)
    /\ forall args st st' subtitles log,
        run_pipeline args content st = Ok (subtitles, st', log) ->
        map timestamp subtitles = map timestamp (parse_srt content).
Proof.
  intros Hblock Hlines. unfold parse_block. rewrite Hlines.
  eexists. split; [reflexivity |]. split; [| split; [| split; [| split]]].
  - unfold parse_srt. apply list_elem_of_omap. exists block.
    split; [assumption |]. unfold parse_block. now rewrite Hlines.
  - reflexivity.
  - intros Ht. now apply String.eqb_eq in Ht.
  - reflexivity.
  - intros args st st' subtitles log Hrun.
    now apply run_pipeline_fields in Hrun as (_ & Ht & _).
Qed.

End PipelineClaims.

(** C5.  A well-formed file of [N] blocks (see [wf_file]) is parsed into
    [N] records, one per block and in the order of the blocks, each with
    the block's number, timecode and text.  Written back with the source
    text as translation, the records give the blocks of the file with one
    blank line after each of them, and that text is parsed into the same
    records. *)
Theorem C5_round_trip (blocks : list (list string * nat)) :
  wf_file blocks = true ->
  let records := parse_srt (render_file blocks) in
  records = map (fun block => block_record block.1) blocks
  /\ length records = length blocks
  /\ write_srt (map keep_source records) = normalised_file blocks
  /\ parse_srt (write_srt (map keep_source records)) = records.
Proof.
  intros Hwf records. subst records.
  rewrite (SrtFacts.parse_srt_render_file blocks Hwf).
  split; [reflexivity |]. split; [now rewrite length_map |].
  rewrite SrtFacts.write_srt_blocks by now apply SrtFacts.wf_file_blocks.
  split; [reflexivity |]. unfold normalised_file.
  rewrite SrtFacts.parse_srt_render_file
    by now apply SrtFacts.wf_file_normalised.
  apply SrtFacts.block_records_normalised.
Qed.

(** C6.  The reply of two entries, the first of two lines, is parsed into
    the dictionary of those two entries. *)
Theorem C6_multi_line_reconstruction :
  parse_llm_response ("1 >>> Hello" ++ lf ++ "world" ++ lf ++ "2 >>> Bye")
  = {[ "1" := "Hello" ++ lf ++ "world"; "2" := "Bye" ]}.
Proof. vm_compute. reflexivity. Qed.

(** C7, amended.  A line of the reply that is not blank and does not open
    an entry, read while an id is current, is appended to the lines of that
    id without the white space at its two ends; the dictionary and the
    current id stay as they are. *)
Theorem C7_continuation_line_stripped (ps : parser_state) (raw id : string) :
  current_id ps = Some id ->
  Py.strip raw <> "" ->
  match_new_block (Py.strip raw) = None ->
  parse_line ps raw
  = {| translation_map := translation_map ps;
       current_id := Some id;
       current_text_lines := (current_text_lines ps ++ [Py.strip raw])%list |}.
Proof. intros Hid Hne Hm. now apply parse_line_continuation. Qed.

(** ** Counterexamples *)

(** C1 as stated fails: the backend answers with an entry that has no
    text, the translator accepts it, and the record ends with an empty
    translation, which is not its source text either. *)
Lemma C1_counterexample :
  let sub := {| index := "7"; timestamp := sample_timecode; text := "Hi";
                translated_text := "" |} in
  @run_pipeline unit (constant_backend "7 >>>") sample_args sample_file tt
  = Ok ([sub], tt, [])
  /\ translated_text sub = ""
  /\ translated_text sub <> text sub.
Proof.
  cbv zeta. repeat split; try (vm_compute; reflexivity).
  vm_compute. discriminate.
Qed.

(** C7 as stated fails: after the entry line of the id 1, a continuation
    line with spaces around it is stored without them. *)
Lemma C7_counterexample :
  let ps := parse_lines parser_init ["1 >>> a"] in
  let raw := "  b  " in
  current_id ps = Some "1"
  /\ Py.strip raw <> ""
  /\ match_new_block raw = None
  /\ match_new_block (Py.strip raw) = None
  /\ current_text_lines (parse_line ps raw) = ["a"; "b"]
  /\ current_text_lines (parse_line ps raw)
     <> (current_text_lines ps ++ [raw])%list
  /\ parse_llm_response ("1 >>> a" ++ lf ++ raw ++ lf ++ "2 >>> c") !! "1"
     = Some ("a" ++ lf ++ "b").
Proof.
  cbv zeta. repeat split; try (vm_compute; reflexivity);
    vm_compute; discriminate.
Qed.

(** C8 as stated fails: the timecode line of the block has a space on each
    side, and the record holds it without them. *)
Lemma C8_counterexample :
  Py.re_split_blank_lines (Py.strip padded_file) = [padded_file]
  /\ Py.split_nl padded_file = ["7"; " " ++ sample_timecode ++ " "; "Hi"]
  /\ parse_srt padded_file = [sample_sub "7" "Hi"]
  /\ timestamp (sample_sub "7" "Hi") <> " " ++ sample_timecode ++ " ".
Proof.
  repeat split; try (vm_compute; reflexivity). vm_compute. discriminate.
Qed.


(** ** The theorems at sample inputs *)

Example bisect_3456 :
  @process_batch _ scripted_backend batch_3456 sample_args 0 script_3456
  = Ok ({[ "3" := "tres"; "4" := "cuatro"; "5" := "cinco"; "6" := "seis" ]},
        [], [LogSplit 0 4 2 2]).
Proof. vm_compute. reflexivity. Qed.

Lemma C2_witness :
  (2 <= length batch_3456)%nat
  /\ @retries_exhausted _ scripted_backend batch_3456 sample_args script_3456
     = true
  /\ exists st1 log ml st2 ll mr st3 lr,
      @attempts_of _ scripted_backend batch_3456 sample_args 0 script_3456
      = (None, st1, log)
      /\ @process_batch _ scripted_backend
           (take (length batch_3456 / 2) batch_3456) sample_args 1 st1
         = Ok (ml, st2, ll)
      /\ @process_batch _ scripted_backend
           (drop (length batch_3456 / 2) batch_3456) sample_args 1 st2
         = Ok (mr, st3, lr)
      /\ @process_batch _ scripted_backend batch_3456 sample_args 0 script_3456
         = Ok (mr ∪ ml, st3,
               (log
                ++ LogSplit 0 (length batch_3456) (length batch_3456 / 2)
                     (length batch_3456 - length batch_3456 / 2)
                   :: ll ++ lr)%list).
Proof.
  assert (Hlen : (2 <= length batch_3456)%nat) by (vm_compute; lia).
  assert (Hex : @retries_exhausted _ scripted_backend batch_3456 sample_args
                  script_3456 = true) by (vm_compute; reflexivity).
  exact (conj Hlen (conj Hex
           (proj2 (proj2 (@C2_success_requires_every_id _ scripted_backend
                            batch_3456 sample_args 0 script_3456))
              Hlen Hex))).
Defined.

Lemma C3_witness :
  (2 <= length batch_3456)%nat
  /\ @retries_exhausted _ scripted_backend batch_3456 sample_args script_3456
     = true
  /\ take (length batch_3456 / 2) batch_3456
     = [sample_sub "3" "three"; sample_sub "4" "four"]
  /\ drop (length batch_3456 / 2) batch_3456
     = [sample_sub "5" "five"; sample_sub "6" "six"]
  /\ exists st1 log ml st2 ll mr st3 lr,
      @attempts_of _ scripted_backend batch_3456 sample_args 0 script_3456
      = (None, st1, log)
      /\ @process_batch _ scripted_backend
           (take (length batch_3456 / 2) batch_3456) sample_args 1 st1
         = Ok (ml, st2, ll)
      /\ @process_batch _ scripted_backend
           (drop (length batch_3456 / 2) batch_3456) sample_args 1 st2
         = Ok (mr, st3, lr)
      /\ @process_batch _ scripted_backend batch_3456 sample_args 0 script_3456
         = Ok (mr ∪ ml, st3,
               (log
                ++ LogSplit 0 (length batch_3456) (length batch_3456 / 2)
                     (length batch_3456 - length batch_3456 / 2)
                   :: ll ++ lr)%list)
      /\ forall id,
          (mr ∪ ml) !! id
          = match mr !! id with
            | Some translated => Some translated
            | None => ml !! id
            end.
Proof.
  assert (Hlen : (2 <= length batch_3456)%nat) by (vm_compute; lia).
  assert (Hex : @retries_exhausted _ scripted_backend batch_3456 sample_args
                  script_3456 = true) by (vm_compute; reflexivity).
  refine (conj Hlen (conj Hex (conj eq_refl (conj eq_refl _)))).
  exact (proj2 (proj2 (proj2
           (@C3_bisect_at_midpoint _ scripted_backend batch_3456 sample_args 0
              script_3456 Hlen Hex)))).
Defined.

Lemma C5_witness :
  wf_file sample_blocks = true
  /\ parse_srt (render_file sample_blocks)
     = [ {| index := "7"; timestamp := sample_timecode; text := "Hi";
            translated_text := "" |};
         {| index := "8"; timestamp := "00:00:03,000 --> 00:00:04,500";
            text := "<i>Good</i>" ++ lf ++ "morning"; translated_text := "" |} ]
  /\ write_srt (map keep_source (parse_srt (render_file sample_blocks)))
     = normalised_file sample_blocks
  /\ parse_srt
       (write_srt (map keep_source (parse_srt (render_file sample_blocks))))
     = parse_srt (render_file sample_blocks).
Proof.
  assert (Hwf : wf_file sample_blocks = true) by (vm_compute; reflexivity).
  destruct (C5_round_trip sample_blocks Hwf) as (Hrec & _ & Hout & Hback).
  split; [exact Hwf |]. split; [exact Hrec |]. split; [exact Hout |].
  exact Hback.
Defined.

Lemma C7_witness :
  let ps := parse_lines parser_init ["1 >>> a"] in
  current_id ps = Some "1"
  /\ Py.strip "  b  " <> ""
  /\ match_new_block (Py.strip "  b  ") = None
  /\ parse_line ps "  b  "
     = {| translation_map := translation_map ps;
          current_id := Some "1";
          current_text_lines := (current_text_lines ps ++ ["b"])%list |}.
Proof.
  intros ps.
  assert (Hid : current_id ps = Some "1") by (vm_compute; reflexivity).
  assert (Hne : Py.strip "  b  " <> "") by (vm_compute; discriminate).
  assert (Hm : match_new_block (Py.strip "  b  ") = None)
    by (vm_compute; reflexivity).
  exact (conj Hid (conj Hne (conj Hm
           (C7_continuation_line_stripped ps "  b  " "1" Hid Hne Hm)))).
Defined.

Lemma C8_witness :
  padded_file ∈ Py.re_split_blank_lines (Py.strip padded_file)
  /\ Py.split_nl padded_file = ["7"; " " ++ sample_timecode ++ " "; "Hi"]
  /\ exists sub,
      parse_block padded_file = Some sub
      /\ sub ∈ parse_srt padded_file
      /\ timestamp sub = Py.strip (" " ++ sample_timecode ++ " ").
Proof.
  assert (Hblock : padded_file
                   ∈ Py.re_split_blank_lines (Py.strip padded_file))
    by (vm_compute; constructor).
  assert (Hlines : Py.split_nl padded_file
                   = ["7"; " " ++ sample_timecode ++ " "; "Hi"])
    by (vm_compute; reflexivity).
  destruct (@C8_timecode_stripped unit echo_backend padded_file padded_file
              "7" (" " ++ sample_timecode ++ " ") "Hi" [] Hblock Hlines)
    as (sub & Hparse & Hin & Htime & _).
  split; [exact Hblock |]. split; [exact Hlines |].
  exists sub. split; [exact Hparse |]. split; [exact Hin | exact Htime].
Defined.

Lemma C9_witness :
  (1 <= length batch_3456)%nat
  /\ exists m st' log,
      @process_batch_recursive _ scripted_backend
        (S (Nat.log2_up (length batch_3456))) batch_3456 sample_args 0 []
      = Ok (m, st', log)
      /\ Forall (fun e =>
                   (0 <= event_depth e
                    <= 0 + Nat.log2_up (length batch_3456))%nat) log.
Proof.
  assert (Hlen : (1 <= length batch_3456)%nat) by (vm_compute; lia).
  exact (conj Hlen
           (proj1 (@C9_recursion_depth _ scripted_backend batch_3456
                     sample_args 0 [] Hlen))).
Defined.

(** * Further properties *)

(** ** More facts about the string primitives *)

Module StripFacts.
Import Py PyFacts.

Lemma lstrip_idem (s : string) : lstrip (lstrip s) = lstrip s.
Proof.
  induction s as [|c s IH]; [reflexivity |].
  cbn [lstrip]. destruct (is_space c) eqn:Hc; [exact IH |].
  cbn [lstrip]. now rewrite Hc.
Qed.

Lemma rstrip_fixed_tail (c : ascii) (s : string) :
  is_space c = true -> rstrip (String c s) = String c s -> rstrip s = s.
Proof.
  intros Hc. cbn [rstrip]. rewrite Hc.
  destruct (rstrip s) as [|x r]; [discriminate |]. now intros [= <-].
Qed.

Lemma rstrip_lstrip_fixed (s : string) :
  rstrip s = s -> rstrip (lstrip s) = lstrip s.
Proof.
  induction s as [|c s IH]; intros Hs; [reflexivity |].
  cbn [lstrip]. destruct (is_space c) eqn:Hc; [| exact Hs].
  apply IH. now apply rstrip_fixed_tail with c.
Qed.

Lemma rstrip_idem (s : string) : rstrip (rstrip s) = rstrip s.
Proof.
  induction s as [|c s IH]; [reflexivity |].
  cbn [rstrip]. destruct (rstrip s) as [|x r] eqn:Hr.
  - destruct (is_space c) eqn:Hc; [reflexivity |].
    cbn [rstrip]. now rewrite Hc.
  - rewrite rstrip_cons; rewrite IH; [reflexivity | discriminate].
Qed.

Lemma strip_idem (s : string) : strip (strip s) = strip s.
Proof.
  unfold strip.
  rewrite (rstrip_lstrip_fixed (rstrip s)) by apply rstrip_idem.
  apply lstrip_idem.
Qed.

Lemma strip_space_cons (c : ascii) (s : string) :
  is_space c = true -> strip (String c s) = strip s.
Proof.
  intros Hc. unfold strip. cbn [rstrip].
  destruct (rstrip s) as [|x r]; [now rewrite Hc |].
  cbn [lstrip]. now rewrite Hc.
Qed.

Lemma strip_empty_rstrip (s : string) : strip s = "" -> rstrip s = "".
Proof.
  unfold strip. intros Hs.
  assert (Hgen : forall r, rstrip r = r -> lstrip r = "" -> r = "").
  { induction r as [|c r IH]; intros Hr Hl; [reflexivity |].
    cbn [lstrip] in Hl. destruct (is_space c) eqn:Hc; [| discriminate].
    pose proof (rstrip_fixed_tail c r Hc Hr) as Hr'.
    specialize (IH Hr' Hl). subst r. cbn [rstrip] in Hr. rewrite Hc in Hr.
    discriminate. }
  apply Hgen; [apply rstrip_idem | exact Hs].
Qed.

Lemma rstrip_empty_strip (s : string) : rstrip s = "" -> strip s = "".
Proof. intros Hs. unfold strip. now rewrite Hs. Qed.

(** A string is what [rstrip] keeps of it followed by white space. *)
Lemma rstrip_decompose (s : string) :
  exists w, s = rstrip s ++ w /\ rstrip w = "".
Proof.
  induction s as [|c s (w & Hs & Hw)]; [now exists "" |].
  cbn [rstrip]. destruct (rstrip s) as [|x r] eqn:Hr.
  - rewrite append_nil_l in Hs. subst w.
    destruct (is_space c) eqn:Hc.
    + exists (String c s). split; [reflexivity |].
      cbn [rstrip]. now rewrite Hw, Hc.
    + exists s. split; [reflexivity | exact Hw].
  - exists w. split; [| exact Hw]. rewrite append_cons. now f_equal.
Qed.

End StripFacts.

(** ** More facts about the Response Parser *)

Section ParserKeys.
Import Py PyFacts StripFacts.

Lemma span_digits_digits (s : string) : all_digits (span_digits s).1 = true.
Proof.
  induction s as [|c s IH]; [reflexivity |].
  cbn [span_digits]. destruct (is_digit c) eqn:Hc; [| reflexivity].
  destruct (span_digits s) as [ds rest]. cbn in IH |- *. now rewrite Hc, IH.
Qed.

Lemma match_new_block_inv (line id text_part : string) :
  match_new_block line = Some (id, text_part) ->
  all_digits id = true /\ id <> "" /\ lstrip text_part = text_part.
Proof.
  unfold match_new_block. pose proof (span_digits_digits line) as Hd.
  destruct (span_digits line) as [digits rest]. cbn in Hd.
  destruct digits as [|d digits]; [discriminate |].
  destruct (lstrip rest) as [|c1 s1]; [discriminate |].
  destruct c1 as [[] [] [] [] [] [] [] []]; try discriminate.
  destruct s1 as [|c2 s2]; [discriminate |].
  destruct c2 as [[] [] [] [] [] [] [] []]; try discriminate.
  destruct s2 as [|c3 s3]; [discriminate |].
  destruct c3 as [[] [] [] [] [] [] [] []]; try discriminate.
  intros [= <- <-]. repeat split; [assumption | discriminate |].
  apply lstrip_idem.
Qed.

Lemma entry_ids_cons (raw : string) (lines : list string) :
  entry_ids (raw :: lines)
  = match match_new_block (strip raw) with
    | Some (id, _) => id :: entry_ids lines
    | None => entry_ids lines
    end.
Proof.
  unfold entry_ids. cbn.
  now destruct (match_new_block (strip raw)) as [[id text_part]|].
Qed.

Lemma entry_ids_inv (id : string) (lines : list string) :
  id ∈ entry_ids lines ->
  exists raw text_part,
    raw ∈ lines /\ match_new_block (strip raw) = Some (id, text_part).
Proof.
  unfold entry_ids. intros Hin.
  apply list_elem_of_omap in Hin as (raw & Hraw & Hm).
  destruct (match_new_block (strip raw)) as [[id' text_part]|] eqn:Hmatch;
    [| discriminate].
  injection Hm as <-. eauto.
Qed.

(** The ids that the dictionary holds at the end are those it would hold
    if flushed now and those of the entry lines still to come. *)
Lemma flush_keys (id : string) (lines : list string) :
  forall ps : parser_state,
    is_Some (flush (parse_lines ps lines) !! id)
    <-> is_Some (flush ps !! id) \/ id ∈ entry_ids lines.
Proof.
  induction lines as [|raw lines IH]; intros ps.
  - cbn. split; [now left |]. intros [Hs|Hin]; [exact Hs | inversion Hin].
  - cbn [parse_lines fold_left].
    change (fold_left parse_line lines ?p) with (parse_lines p lines).
    rewrite IH, entry_ids_cons. unfold parse_line.
    destruct (match_new_block (strip raw)) as [[id' text_part]|] eqn:Hm.
    + destruct (strip raw) eqn:Hraw; [discriminate |].
      unfold flush at 1. cbn [current_id translation_map current_text_lines].
      rewrite lookup_insert_is_Some', elem_of_cons. intuition.
    + destruct (strip raw) as [|c line]; [reflexivity |].
      destruct (current_id ps) as [cur|] eqn:Hcur; [| reflexivity].
      unfold flush. cbn [current_id translation_map current_text_lines].
      rewrite Hcur, !lookup_insert_is_Some'. reflexivity.
Qed.

(** The values of the dictionary carry no white space at their ends. *)
Lemma flush_values (lines : list string) :
  forall ps : parser_state,
    map_Forall (fun _ t => strip t = t) (translation_map ps) ->
    map_Forall (fun _ t => strip t = t) (flush (parse_lines ps lines)).
Proof.
  assert (Hflush : forall ps,
             map_Forall (fun _ t => strip t = t) (translation_map ps) ->
             map_Forall (fun _ t => strip t = t) (flush ps)).
  { intros ps Hps. unfold flush. destruct (current_id ps); [| exact Hps].
    apply map_Forall_insert_2; [apply strip_idem | exact Hps]. }
  induction lines as [|raw lines IH]; intros ps Hps; [now apply Hflush |].
  cbn [parse_lines fold_left].
  change (fold_left parse_line lines ?p) with (parse_lines p lines).
  apply IH. unfold parse_line.
  destruct (strip raw); [exact Hps |].
  destruct (match_new_block _) as [[id' text_part]|].
  - now apply Hflush.
  - destruct (current_id ps); exact Hps.
Qed.

End ParserKeys.

(** X1.  The ids under which the dictionary of a reply has a value are the
    ids of the entry lines of the reply: a line that opens no entry adds
    no id, and no entry line is lost. *)
Theorem parse_llm_response_keys (reply id : string) :
  is_Some (parse_llm_response reply !! id)
  <-> id ∈ entry_ids (Py.split_nl (Py.strip reply)).
Proof.
  unfold parse_llm_response. rewrite flush_keys. cbn.
  rewrite lookup_empty. split; [| now right].
  intros [[x Hx]|Hin]; [discriminate | exact Hin].
Qed.

Lemma parse_entry_inv (reply id translated : string) :
  parse_llm_response reply !! id = Some translated ->
  all_digits id = true /\ id <> "" /\ Py.strip translated = translated.
Proof.
  intros Hlookup.
  assert (Hin : id ∈ entry_ids (Py.split_nl (Py.strip reply))).
  { unfold parse_llm_response in Hlookup.
    assert (Hsome : is_Some (flush (parse_lines parser_init
                                      (Py.split_nl (Py.strip reply))) !! id))
      by eauto.
    apply flush_keys in Hsome as [[x Hx]|Hin]; [| exact Hin].
    cbn in Hx. now rewrite lookup_empty in Hx. }
  apply entry_ids_inv in Hin as (raw & text_part & _ & Hm).
  apply match_new_block_inv in Hm as (Hd & Hne & _).
  repeat split; try assumption.
  unfold parse_llm_response in Hlookup.
  exact (flush_values _ parser_init (map_Forall_empty _) id translated Hlookup).
Qed.

(** X2.  Every id of the dictionary of a reply is a non-empty string of
    digits, and every value is free of white space at its two ends. *)
Theorem parse_llm_response_entries (reply id translated : string) :
  parse_llm_response reply !! id = Some translated ->
  all_digits id = true /\ id <> "" /\ Py.strip translated = translated.
Proof. apply parse_entry_inv. Qed.

Lemma parse_llm_response_entries_witness :
  parse_llm_response reply_without_5 !! "4" = Some "cuatro"
  /\ all_digits "4" = true /\ "4" <> "" /\ Py.strip "cuatro" = "cuatro".
Proof.
  assert (Hl : parse_llm_response reply_without_5 !! "4" = Some "cuatro")
    by (vm_compute; reflexivity).
  exact (conj Hl (parse_llm_response_entries reply_without_5 "4" "cuatro" Hl)).
Defined.

(** ** More facts about the translator *)

Section TranslatorCoverage.
Context {B : Type} `{Backend B}.

Lemma attempts_some_reply (remaining : nat) (batch_ids : list string)
    (args : Args) (system_prompt user_input : string) (depth : nat)
    (st st1 : B) (m : gmap string string) (log : list event) :
  attempts remaining batch_ids args system_prompt user_input depth st
  = (Some m, st1, log) ->
  exists content, m = parse_llm_response content.
Proof.
  revert st log. induction remaining as [|n IH]; intros st log;
    [discriminate |].
  cbn [attempts].
  destruct (chat st (model args) system_prompt user_input)
    as [[content|message] st0].
  - destruct (missing_ids batch_ids (parse_llm_response content)).
    + intros [= <- <- <-]. eauto.
    + apply IH.
  - destruct (attempts n batch_ids args system_prompt user_input depth st0)
      as [[found st2] log'] eqn:Hrec.
    intros [= -> -> <-]. now apply IH with st0 log'.
Qed.

(** One step of [process_batch_recursive], by the exit that it takes. *)
Lemma process_batch_recursive_cases (fuel : nat) (batch : list Sub)
    (args : Args) (depth : nat) (st st' : B) (m : gmap string string)
    (log : list event) :
  process_batch_recursive (S fuel) batch args depth st = Ok (m, st', log) ->
  attempts_of batch args depth st = (Some m, st', log)
  \/ (exists sub log0,
         batch = [sub]
         /\ attempts_of batch args depth st = (None, st', log0)
         /\ m = ∅ /\ log = (log0 ++ [LogFailed depth (index sub)])%list)
  \/ (exists st1 log0 ml st2 ll mr lr,
         (2 <= length batch)%nat
         /\ attempts_of batch args depth st = (None, st1, log0)
         /\ process_batch_recursive fuel (take (length batch / 2) batch) args
              (S depth) st1 = Ok (ml, st2, ll)
         /\ process_batch_recursive fuel (drop (length batch / 2) batch) args
              (S depth) st2 = Ok (mr, st', lr)
         /\ m = mr ∪ ml
         /\ log = (log0
                   ++ LogSplit depth (length batch)
                        (length (take (length batch / 2) batch))
                        (length (drop (length batch / 2) batch))
                      :: ll ++ lr)%list).
Proof.
  unfold attempts_of. cbn [process_batch_recursive generate_prompt fst snd].
  destruct (attempts _ _ _ _ _ _ _) as [[[m0|] st1] log0].
  - intros [= <- <- <-]. now left.
  - destruct (length batch <=? 1)%nat eqn:Hlen.
    + apply Nat.leb_le in Hlen.
      destruct batch as [|sub [|sub' batch]]; cbn in Hlen;
        [discriminate | | lia].
      intros [= <- <- <-]. right. left. exists sub, log0. auto.
    + apply Nat.leb_gt in Hlen.
      destruct (process_batch_recursive fuel (take _ batch) args (S depth) st1)
        as [[[ml st2] ll]| |] eqn:Hl; try discriminate.
      cbn [mbind result_mbind result_bind].
      destruct (process_batch_recursive fuel (drop _ batch) args (S depth) st2)
        as [[[mr st3] lr]| |] eqn:Hr; try discriminate.
      cbn [mbind result_mbind result_bind]. intros [= <- <- <-].
      right. right. exists st1, log0, ml, st2, ll, mr, lr.
      split; [lia |]. auto.
Qed.

(** Every record of a translated batch has its id in the dictionary or a
    line of failure in the log. *)
Lemma process_batch_recursive_covered (fuel : nat) :
  forall (batch : list Sub) (args : Args) (depth : nat) (st st' : B)
         (m : gmap string string) (log : list event),
    process_batch_recursive fuel batch args depth st = Ok (m, st', log) ->
    forall sub,
      sub ∈ batch ->
      is_Some (m !! index sub)
      \/ exists d, LogFailed d (index sub) ∈ log.
Proof.
  induction fuel as [|fuel IH]; intros batch args depth st st' m log Hrun;
    [discriminate |].
  intros sub Hin.
  apply process_batch_recursive_cases in Hrun
    as [Hatt|[(sub0 & log0 & -> & _ & -> & ->)
             |(st1 & log0 & ml & st2 & ll & mr & lr
               & Hlen & _ & Hl & Hr & -> & ->)]].
  - left. unfold attempts_of in Hatt. apply attempts_some in Hatt.
    apply (proj1 (missing_ids_nil _ _) Hatt).
    now apply list_elem_of_fmap_2.
  - right. apply list_elem_of_singleton in Hin as ->.
    exists depth. apply elem_of_app. right. constructor.
  - rewrite <- (take_drop (length batch / 2) batch) in Hin.
    apply elem_of_app in Hin as [Hin|Hin].
    + destruct (IH _ _ _ _ _ _ _ Hl sub Hin) as [Hs|[d Hd]].
      * left. apply lookup_union_is_Some. now right.
      * right. exists d. apply elem_of_app. right. apply elem_of_cons.
        right. apply elem_of_app. now left.
    + destruct (IH _ _ _ _ _ _ _ Hr sub Hin) as [Hs|[d Hd]].
      * left. apply lookup_union_is_Some. now left.
      * right. exists d. apply elem_of_app. right. apply elem_of_cons.
        right. apply elem_of_app. now right.
Qed.

(** Every id of a dictionary of the translator is a non-empty string of
    digits. *)
Lemma process_batch_recursive_keys (fuel : nat) :
  forall (batch : list Sub) (args : Args) (depth : nat) (st st' : B)
         (m : gmap string string) (log : list event),
    process_batch_recursive fuel batch args depth st = Ok (m, st', log) ->
    forall id, is_Some (m !! id) -> all_digits id = true /\ id <> "".
Proof.
  induction fuel as [|fuel IH]; intros batch args depth st st' m log Hrun;
    [discriminate |].
  intros id [t Ht].
  apply process_batch_recursive_cases in Hrun
    as [Hatt|[(sub0 & log0 & -> & _ & -> & ->)
             |(st1 & log0 & ml & st2 & ll & mr & lr
               & Hlen & _ & Hl & Hr & -> & ->)]].
  - unfold attempts_of in Hatt.
    apply attempts_some_reply in Hatt as [content ->].
    apply parse_entry_inv in Ht as (Hd & Hne & _). now split.
  - now rewrite lookup_empty in Ht.
  - apply lookup_union_Some_raw in Ht as [Ht|[_ Ht]].
    + apply (IH _ _ _ _ _ _ _ Hr). eauto.
    + apply (IH _ _ _ _ _ _ _ Hl). eauto.
Qed.

End TranslatorCoverage.

(** X3.  What the translator returns for a batch accounts for every
    record: the id of the record is in the dictionary, or the log holds
    the line of failure of that id. *)
Theorem process_batch_failure_logged {B : Type} `{Backend B}
    (batch : list Sub) (args : Args) (depth : nat) (st st' : B)
    (m : gmap string string) (log : list event) (sub : Sub) :
  process_batch batch args depth st = Ok (m, st', log) ->
  sub ∈ batch ->
  is_Some (m !! index sub) \/ exists d, LogFailed d (index sub) ∈ log.
Proof.
  intros Hrun Hin.
  exact (process_batch_recursive_covered _ _ _ _ _ _ _ _ Hrun sub Hin).
Qed.

Lemma process_batch_failure_logged_witness :
  @process_batch _ scripted_backend batch_3456 sample_args 0 script_without_5
  = Ok ({[ "3" := "tres"; "4" := "cuatro"; "6" := "seis" ]}, [],
        [LogSplit 0 4 2 2; LogSplit 1 2 1 1; LogFailed 2 "5"])
  /\ sample_sub "5" "five" ∈ batch_3456
  /\ (is_Some (({[ "3" := "tres"; "4" := "cuatro"; "6" := "seis" ]}
                : gmap string string) !! index (sample_sub "5" "five"))
      \/ exists d,
          LogFailed d (index (sample_sub "5" "five"))
          ∈ [LogSplit 0 4 2 2; LogSplit 1 2 1 1; LogFailed 2 "5"]).
Proof.
  assert (Hrun : @process_batch _ scripted_backend batch_3456 sample_args 0
                   script_without_5
                 = Ok ({[ "3" := "tres"; "4" := "cuatro"; "6" := "seis" ]}, [],
                       [LogSplit 0 4 2 2; LogSplit 1 2 1 1; LogFailed 2 "5"]))
    by (vm_compute; reflexivity).
  assert (Hin : sample_sub "5" "five" ∈ batch_3456)
    by (unfold batch_3456; repeat constructor).
  exact (conj Hrun (conj Hin
           (@process_batch_failure_logged _ scripted_backend batch_3456
              sample_args 0 _ _ _ _ (sample_sub "5" "five") Hrun Hin))).
Defined.

(** ** The number of calls of the backend *)

Section Calls.
Variable oracle : nat -> string -> string -> string -> chat_result.

Lemma attempts_calls (remaining : nat) (batch_ids : list string)
    (args : Args) (system_prompt user_input : string) (depth : nat) :
  forall (calls calls' : nat) (found : option (gmap string string))
         (log : list event),
    @attempts nat (counting_backend oracle) remaining batch_ids args
      system_prompt user_input depth calls
    = (found, calls', log) ->
    (calls <= calls' <= calls + remaining)%nat.
Proof.
  induction remaining as [|n IH]; intros calls calls' found log.
  - intros [= _ <- _]. lia.
  - cbn [attempts]. unfold chat, counting_backend.
    destruct (oracle calls (model args) system_prompt user_input)
      as [content|message].
    + destruct (missing_ids batch_ids (parse_llm_response content)).
      * intros [= _ <- _]. lia.
      * intros Hrec. apply IH in Hrec. lia.
    + destruct (attempts n batch_ids args system_prompt user_input depth
                  (S calls)) as [[found' calls''] log'] eqn:Hrec.
      intros [= _ <- _]. apply IH in Hrec. lia.
Qed.

Lemma process_batch_recursive_calls (fuel : nat) :
  forall (batch : list Sub) (args : Args) (depth calls calls' : nat)
         (m : gmap string string) (log : list event),
    (1 <= length batch)%nat ->
    @process_batch_recursive nat (counting_backend oracle) fuel batch args
      depth calls
    = Ok (m, calls', log) ->
    (calls <= calls'
     <= calls + Z.to_nat (retries args) * (2 * length batch - 1))%nat.
Proof.
  induction fuel as [|fuel IH];
    intros batch args depth calls calls' m log Hlen Hrun; [discriminate |].
  set (R := Z.to_nat (retries args)).
  apply process_batch_recursive_cases in Hrun
    as [Hatt|[(sub0 & log0 & -> & Hatt & _ & _)
             |(st1 & log0 & ml & st2 & ll & mr & lr
               & Hlen2 & Hatt & Hl & Hr & _ & _)]].
  - unfold attempts_of in Hatt. apply attempts_calls in Hatt. fold R in Hatt.
    nia.
  - unfold attempts_of in Hatt. apply attempts_calls in Hatt. fold R in Hatt.
    cbn [length]. nia.
  - unfold attempts_of in Hatt. apply attempts_calls in Hatt. fold R in Hatt.
    pose proof (Nat.div_mod_eq (length batch) 2) as Hdiv.
    pose proof (Nat.mod_upper_bound (length batch) 2) as Hmod.
    apply IH in Hl; [| rewrite length_take; lia].
    apply IH in Hr; [| rewrite length_drop; lia].
    fold R in Hl, Hr. rewrite length_take in Hl. rewrite length_drop in Hr.
    replace (Nat.min (length batch / 2) (length batch))
      with (length batch / 2)%nat in Hl by lia.
    set (n := length batch) in *. set (l := (n / 2)%nat) in *.
    assert (Hl1 : (1 <= l)%nat) by lia.
    assert (Hr1 : (1 <= n - l)%nat) by lia.
    assert (Hsum : (R + R * (2 * l - 1) + R * (2 * (n - l) - 1)
                    = R * (2 * n - 1))%nat) by nia.
    lia.
Qed.

End Calls.

(** X4.  With a backend that counts its calls, the translation of a batch
    of [n >= 1] records makes at most [retries * (2 * n - 1)] calls,
    whatever the backend answers. *)
Theorem process_batch_calls_bound
    (oracle : nat -> string -> string -> string -> chat_result)
    (batch : list Sub) (args : Args) (depth calls calls' : nat)
    (m : gmap string string) (log : list event) :
  (1 <= length batch)%nat ->
  @process_batch nat (counting_backend oracle) batch args depth calls
  = Ok (m, calls', log) ->
  (calls <= calls'
   <= calls + Z.to_nat (retries args) * (2 * length batch - 1))%nat.
Proof. unfold process_batch. apply process_batch_recursive_calls. Qed.

(** The bound is reached when every call fails: 14 calls for four records
    and two retries. *)
Lemma process_batch_calls_bound_witness :
  (1 <= length batch_3456)%nat
  /\ @process_batch nat (counting_backend (fun _ _ _ _ => ChatError "down"))
       batch_3456 sample_args 0 0
     = Ok (∅, 14%nat,
           [LogError 0 "down"; LogError 0 "down"; LogSplit 0 4 2 2;
            LogError 1 "down"; LogError 1 "down"; LogSplit 1 2 1 1;
            LogError 2 "down"; LogError 2 "down"; LogFailed 2 "3";
            LogError 2 "down"; LogError 2 "down"; LogFailed 2 "4";
            LogError 1 "down"; LogError 1 "down"; LogSplit 1 2 1 1;
            LogError 2 "down"; LogError 2 "down"; LogFailed 2 "5";
            LogError 2 "down"; LogError 2 "down"; LogFailed 2 "6"])
  /\ (0 <= 14
      <= 0 + Z.to_nat (retries sample_args) * (2 * length batch_3456 - 1))%nat.
Proof.
  assert (Hlen : (1 <= length batch_3456)%nat) by (vm_compute; lia).
  assert (Hrun :
            @process_batch nat
              (counting_backend (fun _ _ _ _ => ChatError "down"))
              batch_3456 sample_args 0 0
            = Ok (∅, 14%nat,
                  [LogError 0 "down"; LogError 0 "down"; LogSplit 0 4 2 2;
                   LogError 1 "down"; LogError 1 "down"; LogSplit 1 2 1 1;
                   LogError 2 "down"; LogError 2 "down"; LogFailed 2 "3";
                   LogError 2 "down"; LogError 2 "down"; LogFailed 2 "4";
                   LogError 1 "down"; LogError 1 "down"; LogSplit 1 2 1 1;
                   LogError 2 "down"; LogError 2 "down"; LogFailed 2 "5";
                   LogError 2 "down"; LogError 2 "down"; LogFailed 2 "6"]))
    by (vm_compute; reflexivity).
  exact (conj Hlen (conj Hrun
           (process_batch_calls_bound _ batch_3456 sample_args 0 0 14 _ _
              Hlen Hrun))).
Defined.

(** ** More facts about the driver *)

Section PipelineFacts.
Context {B : Type} `{Backend B}.

Lemma batch_records_elem (store : list Sub) (batch : list nat) (pos : nat)
    (sub : Sub) :
  pos ∈ batch -> store !! pos = Some sub -> sub ∈ batch_records store batch.
Proof.
  intros Hin Hsub. unfold batch_records. apply list_elem_of_omap. eauto.
Qed.

(** The loop over the batches completes when every batch holds a position
    of the list. *)
Lemma translate_batches_total (args : Args) (batches : list (list nat)) :
  forall (store : list Sub) (st : B),
    Forall (fun batch => exists pos, pos ∈ batch /\ (pos < length store)%nat)
      batches ->
    exists store' st' log,
      translate_batches batches args store st = Ok (store', st', log).
Proof.
  induction batches as [|batch batches IH]; intros store st Hall.
  - cbn. eauto.
  - apply Forall_cons in Hall as [(pos & Hin & Hpos) Hall].
    apply lookup_lt_is_Some in Hpos as [sub Hsub].
    destruct (process_batch_total (batch_records store batch) args 0 st)
      as (m & st1 & log1 & Hrun).
    { intros Hnil. pose proof (batch_records_elem _ _ _ _ Hin Hsub) as Hel.
      rewrite Hnil in Hel. inversion Hel. }
    destruct (IH (merge_batch m batch store) st1) as (store' & st' & log' & Hrest).
    { eapply Forall_impl; [exact Hall |]. cbn.
      intros b (p & Hp & Hlt). exists p. now rewrite merge_batch_length. }
    cbn [translate_batches]. rewrite Hrun.
    cbn [mbind result_mbind result_bind]. rewrite Hrest.
    cbn [mbind result_mbind result_bind]. eauto.
Qed.

(** A position that no batch holds keeps its record. *)
Lemma translate_batches_untouched (args : Args) (batches : list (list nat)) :
  forall (store store' : list Sub) (st st' : B) (log : list event) (pos : nat),
    translate_batches batches args store st = Ok (store', st', log) ->
    (forall batch, batch ∈ batches -> pos ∉ batch) ->
    store' !! pos = store !! pos.
Proof.
  induction batches as [|batch batches IH];
    intros store store' st st' log pos.
  - now intros [= <- <- <-].
  - cbn [translate_batches].
    destruct (process_batch (batch_records store batch) args 0 st)
      as [[[m st1] log1]| |]; try discriminate.
    cbn [mbind result_mbind result_bind].
    destruct (translate_batches batches args (merge_batch m batch store) st1)
      as [[[store2 st2] log2]| |] eqn:Hrest; try discriminate.
    cbn [mbind result_mbind result_bind]. intros [= <- <- <-] Hout.
    rewrite (IH _ _ _ _ _ pos Hrest)
      by (intros b Hb; apply Hout; now apply elem_of_cons; right).
    rewrite merge_batch_lookup, decide_False; [reflexivity |].
    apply Hout. constructor.
Qed.

(** A record that a batch holds ends with a value of the translator, or
    with its source text and a line of failure for its id in the log. *)
Lemma translate_batches_logged (args : Args) (batches : list (list nat)) :
  forall (store store' : list Sub) (st st' : B) (log : list event)
         (pos : nat) (sub' : Sub),
    translate_batches batches args store st = Ok (store', st', log) ->
    store' !! pos = Some sub' ->
    (forall batch, batch ∈ batches -> pos ∉ batch)
    \/ from_translator args sub'
    \/ (translated_text sub' = text sub'
        /\ exists d, LogFailed d (index sub') ∈ log).
Proof.
  induction batches as [|batch batches IH];
    intros store store' st st' log pos sub'.
  - intros _ _. left. intros batch Hin. inversion Hin.
  - cbn [translate_batches].
    destruct (process_batch (batch_records store batch) args 0 st)
      as [[[m st1] log1]| |] eqn:Hrun; try discriminate.
    cbn [mbind result_mbind result_bind].
    destruct (translate_batches batches args (merge_batch m batch store) st1)
      as [[[store2 st2] log2]| |] eqn:Hrest; try discriminate.
    cbn [mbind result_mbind result_bind]. intros [= <- <- <-] Hpos.
    destruct (IH _ _ _ _ _ pos sub' Hrest Hpos)
      as [Hout|[Hfrom|(Hsame & d & Hd)]].
    + rewrite (translate_batches_untouched _ _ _ _ _ _ _ pos Hrest Hout)
        in Hpos.
      rewrite merge_batch_lookup in Hpos.
      destruct (decide (pos ∈ batch)) as [Hin|Hin].
      * destruct (store !! pos) as [sub|] eqn:Hsub; [| discriminate].
        injection Hpos as <-.
        pose proof (batch_records_elem _ _ _ _ Hin Hsub) as Hel.
        destruct (m !! index sub) as [t|] eqn:Hm.
        -- right. left.
           exists (batch_records store batch), st, st1, m, log1.
           split; [exact Hrun |]. split.
           ++ change (index (merge_sub m sub)) with (index sub).
              now apply list_elem_of_fmap_2.
           ++ change (index (merge_sub m sub)) with (index sub).
              now rewrite (merge_sub_lookup m sub t Hm).
        -- right. right. rewrite (merge_sub_none m sub Hm). split;
             [reflexivity |].
           unfold process_batch in Hrun.
           destruct (process_batch_recursive_covered _ _ _ _ _ _ _ _ Hrun
                       sub Hel) as [[t Ht]|[d Hd]]; [congruence |].
           exists d. apply elem_of_app. now left.
      * left. intros b Hb. apply elem_of_cons in Hb as [->|Hb];
          [exact Hin | now apply Hout].
    + now right; left.
    + right. right. split; [exact Hsame |]. exists d.
      apply elem_of_app. now right.
Qed.

Lemma run_pipeline_logged (args : Args) (input_content : string)
    (st st' : B) (subtitles : list Sub) (log : list event) (sub : Sub) :
  (0 < batch_size args)%Z ->
  run_pipeline args input_content st = Ok (subtitles, st', log) ->
  sub ∈ subtitles ->
  from_translator args sub
  \/ (translated_text sub = text sub
      /\ exists d, LogFailed d (index sub) ∈ log).
Proof.
  intros Hsize Hrun Hin. unfold run_pipeline in Hrun.
  destruct (range_from_zero _ _) as [starts| |] eqn:Hstarts;
    try discriminate.
  cbn [mbind result_mbind result_bind] in Hrun.
  apply list_elem_of_lookup in Hin as [pos Hpos].
  destruct (translate_batches_logged _ _ _ _ _ _ _ pos sub Hrun Hpos)
    as [Hout|Hcase]; [| exact Hcase].
  exfalso. apply translate_batches_inv in Hrun as [Hlen _].
  apply lookup_lt_Some in Hpos. rewrite Hlen in Hpos.
  destruct (batches_cover _ (batch_size args) pos Hsize Hpos)
    as (starts' & Hstarts' & batch & Hbatch & Hin).
  rewrite Hstarts in Hstarts'. injection Hstarts' as <-.
  exact (Hout batch Hbatch Hin).
Qed.

(** With a positive batch size every batch holds its first position. *)
Lemma slices_valid (total : nat) (size : Z) (starts : list nat) :
  (0 < size)%Z ->
  range_from_zero total size = Ok starts ->
  Forall (fun batch => exists pos, pos ∈ batch /\ (pos < total)%nat)
    (map (fun i => slice_positions total i (Z.to_nat size)) starts).
Proof.
  intros Hsize. unfold range_from_zero.
  destruct (size =? 0)%Z eqn:H0; [apply Z.eqb_eq in H0; lia |].
  destruct (size <? 0)%Z eqn:Hneg; [apply Z.ltb_lt in Hneg; lia |].
  set (k := Z.to_nat size). assert (Hk : (0 < k)%nat) by (subst k; lia).
  intros [= <-]. apply Forall_forall. intros batch Hbatch.
  apply list_elem_of_fmap in Hbatch as (i & -> & Hi).
  apply list_elem_of_fmap in Hi as (j & -> & Hj).
  apply elem_of_seq in Hj as [_ Hj]. cbn in Hj.
  pose proof (Nat.Div0.mul_div_le (total + k - 1) k) as Hq.
  assert (Hlt : (j * k < total)%nat) by nia.
  exists (j * k)%nat. split; [| exact Hlt].
  unfold slice_positions. apply elem_of_seq. lia.
Qed.

Lemma run_pipeline_total (args : Args) (input_content : string) (st : B) :
  batch_size args <> 0%Z ->
  exists subtitles st' log,
    run_pipeline args input_content st = Ok (subtitles, st', log).
Proof.
  intros Hsize. unfold run_pipeline.
  destruct (Z.lt_trichotomy (batch_size args) 0) as [Hneg|[H0|Hpos]];
    [| contradiction |].
  - unfold range_from_zero.
    destruct (batch_size args =? 0)%Z eqn:Hz; [apply Z.eqb_eq in Hz; lia |].
    destruct (batch_size args <? 0)%Z eqn:Hn;
      [| apply Z.ltb_ge in Hn; lia].
    cbn. eauto.
  - destruct (range_from_zero (length (parse_srt input_content))
                (batch_size args)) as [starts| |] eqn:Hstarts.
    + cbn [mbind result_mbind result_bind].
      apply translate_batches_total.
      now apply slices_valid.
    + exfalso. unfold range_from_zero in Hstarts.
      destruct (batch_size args =? 0)%Z eqn:Hz;
        [apply Z.eqb_eq in Hz; lia |].
      destruct (batch_size args <? 0)%Z; discriminate.
    + exfalso. unfold range_from_zero in Hstarts.
      destruct (batch_size args =? 0)%Z; [discriminate |].
      destruct (batch_size args <? 0)%Z; discriminate.
Qed.

End PipelineFacts.

(** ** Properties of the whole run *)

(** X6.  With an input that is piped in, the run completes for every
    batch size but zero, whatever the backend does, and raises [ValueError]
    for the batch size zero; with a terminal as input it exits with the
    status 1. *)
Theorem main_completes {B : Type} `{Backend B} (args : Args)
    (input_content : string) (st : B) :
  (batch_size args <> 0%Z ->
   exists out st' log, main args (Some input_content) st = Ok (out, st', log))
  /\ (batch_size args = 0%Z ->
      main args (Some input_content) st = Raise ValueError)
  /\ main args None st = Raise (SystemExit 1).
Proof.
  split; [| split].
  - intros Hsize.
    destruct (run_pipeline_total args input_content st Hsize)
      as (subtitles & st' & log & Hrun).
    cbn [main]. rewrite Hrun. cbn [mbind result_mbind result_bind]. eauto.
  - intros Hsize. cbn [main]. unfold run_pipeline, range_from_zero.
    now rewrite Hsize.
  - reflexivity.
Qed.

(** X7.  With a negative batch size no batch is made: the backend is not
    called, and the output is the parsed records with an empty line in the
    place of every translation. *)
Theorem main_negative_batch_size {B : Type} `{Backend B} (args : Args)
    (input_content : string) (st : B) :
  (batch_size args < 0)%Z ->
  main args (Some input_content) st
  = Ok (write_srt (parse_srt input_content), st, [])
  /\ Forall (fun sub => translated_text sub = "") (parse_srt input_content).
Proof.
  intros Hneg. split.
  - cbn [main]. unfold run_pipeline, range_from_zero.
    destruct (batch_size args =? 0)%Z eqn:Hz; [apply Z.eqb_eq in Hz; lia |].
    destruct (batch_size args <? 0)%Z eqn:Hn; [| apply Z.ltb_ge in Hn; lia].
    reflexivity.
  - apply Forall_forall. intros sub Hin. unfold parse_srt in Hin.
    apply list_elem_of_omap in Hin as (block & _ & Hparse).
    unfold parse_block in Hparse.
    destruct (Py.split_nl block) as [|l0 [|l1 [|l2 rest]]];
      try discriminate.
    now injection Hparse as <-.
Qed.

Lemma main_negative_batch_size_witness :
  (batch_size negative_args < 0)%Z
  /\ @main unit echo_backend negative_args (Some sample_file) tt
     = Ok ("7" ++ lf ++ sample_timecode ++ lf ++ lf ++ lf, tt, []).
Proof.
  assert (Hneg : (batch_size negative_args < 0)%Z)
    by (vm_compute; reflexivity).
  split; [exact Hneg |].
  rewrite (proj1 (@main_negative_batch_size unit echo_backend negative_args
                    sample_file tt Hneg)).
  vm_compute. reflexivity.
Defined.

(** X8.  An input without a block of three lines, such as an empty or a
    blank one, gives no record; the run then writes nothing and does not
    call the backend. *)
Theorem main_no_records {B : Type} `{Backend B} (args : Args)
    (input_content : string) (st : B) :
  batch_size args <> 0%Z ->
  (Py.strip input_content = "" -> parse_srt input_content = [])
  /\ (parse_srt input_content = [] ->
      main args (Some input_content) st = Ok ("", st, [])).
Proof.
  intros Hsize. split.
  - intros Hblank. unfold parse_srt. now rewrite Hblank.
  - intros Hnone. cbn [main]. unfold run_pipeline. rewrite Hnone.
    unfold range_from_zero.
    destruct (batch_size args =? 0)%Z eqn:Hz;
      [apply Z.eqb_eq in Hz; contradiction |].
    destruct (batch_size args <? 0)%Z eqn:Hn; [reflexivity |].
    apply Z.ltb_ge in Hn.
    replace ((length (@nil Sub) + Z.to_nat (batch_size args) - 1)
             / Z.to_nat (batch_size args))%nat with 0%nat;
      [reflexivity |].
    symmetry. apply Nat.div_small. cbn [length]. lia.
Qed.

Lemma main_no_records_witness :
  batch_size sample_args <> 0%Z
  /\ Py.strip (" " ++ lf ++ lf) = ""
  /\ @main unit echo_backend sample_args (Some (" " ++ lf ++ lf)) tt
     = Ok ("", tt, []).
Proof.
  assert (Hsize : batch_size sample_args <> 0%Z) by (vm_compute; discriminate).
  assert (Hblank : Py.strip (" " ++ lf ++ lf) = "")
    by (vm_compute; reflexivity).
  destruct (@main_no_records unit echo_backend sample_args (" " ++ lf ++ lf)
              tt Hsize) as [Hparse Hmain].
  exact (conj Hsize (conj Hblank (Hmain (Hparse Hblank)))).
Defined.

(** X9.  The output of a run is the serialization of one record for each
    parsed record, in the same order and with the same id, timecode and
    source text: the driver changes translations only. *)
Theorem main_output_records {B : Type} `{Backend B} (args : Args)
    (input_content out : string) (st st' : B) (log : list event) :
  main args (Some input_content) st = Ok (out, st', log) ->
  exists subtitles,
    out = write_srt subtitles
    /\ length subtitles = length (parse_srt input_content)
    /\ map index subtitles = map index (parse_srt input_content)
    /\ map timestamp subtitles = map timestamp (parse_srt input_content)
    /\ map text subtitles = map text (parse_srt input_content).
Proof.
  cbn [main].
  destruct (run_pipeline args input_content st)
    as [[[subtitles st1] log1]| |] eqn:Hrun; try discriminate.
  cbn [mbind result_mbind result_bind]. intros [= <- <- <-].
  exists subtitles. split; [reflexivity |].
  destruct (run_pipeline_fields _ _ _ _ _ _ Hrun) as (Hi & Ht & Hx).
  repeat split; try assumption.
  apply (f_equal length) in Hi. now rewrite !length_map in Hi.
Qed.

Lemma main_output_records_witness :
  @main _ scripted_backend sample_args (Some sample_file) [Reply "7 >>> Hola"]
  = Ok ("7" ++ lf ++ sample_timecode ++ lf ++ "Hola" ++ lf ++ lf, [], [])
  /\ exists subtitles,
      "7" ++ lf ++ sample_timecode ++ lf ++ "Hola" ++ lf ++ lf
      = write_srt subtitles
      /\ length subtitles = length (parse_srt sample_file)
      /\ map index subtitles = map index (parse_srt sample_file)
      /\ map timestamp subtitles = map timestamp (parse_srt sample_file)
      /\ map text subtitles = map text (parse_srt sample_file).
Proof.
  assert (Hrun : @main _ scripted_backend sample_args (Some sample_file)
                   [Reply "7 >>> Hola"]
                 = Ok ("7" ++ lf ++ sample_timecode ++ lf ++ "Hola" ++ lf ++ lf,
                       [], []))
    by (vm_compute; reflexivity).
  exact (conj Hrun
           (@main_output_records _ scripted_backend sample_args sample_file _
              _ _ _ Hrun)).
Defined.

(** X11.  A block whose first line has no digit gives a record with the
    empty id, and such a record is never translated: no dictionary of the
    translator has the empty id, so a completed run with a positive batch
    size leaves the record with its source text. *)
Theorem run_pipeline_empty_id {B : Type} `{Backend B} (args : Args)
    (input_content : string) (st st' : B) (subtitles : list Sub)
    (log : list event) (sub : Sub) :
  (0 < batch_size args)%Z ->
  run_pipeline args input_content st = Ok (subtitles, st', log) ->
  sub ∈ subtitles ->
  index sub = "" ->
  translated_text sub = text sub.
Proof.
  intros Hsize Hrun Hin Hid.
  destruct (run_pipeline_logged _ _ _ _ _ _ _ Hsize Hrun Hin)
    as [(records & st0 & st1 & m & log1 & Hbatch & _ & Hm)|[Hsame _]];
    [| exact Hsame].
  exfalso. unfold process_batch in Hbatch.
  destruct (process_batch_recursive_keys _ _ _ _ _ _ _ _ Hbatch (index sub))
    as [_ Hne]; [eauto | contradiction].
Qed.

Lemma run_pipeline_empty_id_witness :
  (0 < batch_size sample_args)%Z
  /\ @run_pipeline unit (constant_backend "7 >>> Hola") sample_args
       unnumbered_file tt
     = Ok ([keep_source (sample_sub "" "Hi")], tt, [LogFailed 0 ""])
  /\ keep_source (sample_sub "" "Hi") ∈ [keep_source (sample_sub "" "Hi")]
  /\ index (keep_source (sample_sub "" "Hi")) = ""
  /\ translated_text (keep_source (sample_sub "" "Hi"))
     = text (keep_source (sample_sub "" "Hi")).
Proof.
  assert (Hsize : (0 < batch_size sample_args)%Z) by (vm_compute; reflexivity).
  assert (Hrun : @run_pipeline unit (constant_backend "7 >>> Hola") sample_args
                   unnumbered_file tt
                 = Ok ([keep_source (sample_sub "" "Hi")], tt,
                       [LogFailed 0 ""]))
    by (vm_compute; reflexivity).
  assert (Hin : keep_source (sample_sub "" "Hi")
                ∈ [keep_source (sample_sub "" "Hi")]) by constructor.
  exact (conj Hsize (conj Hrun (conj Hin (conj eq_refl
           (@run_pipeline_empty_id unit (constant_backend "7 >>> Hola")
              sample_args unnumbered_file tt _ _ _ _ Hsize Hrun Hin
              eq_refl))))).
Defined.

(** ** The lines of a reply *)

Module LineFacts.
Import Py PyFacts StripFacts.

Lemma split_nl_cons_nl (s : string) :
  split_nl (String nl s) = "" :: split_nl s.
Proof. reflexivity. Qed.

Lemma split_nl_cons_other (c : ascii) (s h : string) (t : list string) :
  Ascii.eqb c nl = false -> split_nl s = h :: t ->
  split_nl (String c s) = String c h :: t.
Proof. intros Hc Hs. cbn [split_nl]. now rewrite Hc, Hs. Qed.

Lemma split_nl_cons (s : string) : exists h t, split_nl s = h :: t.
Proof.
  destruct (split_nl s) as [|h t] eqn:Hs; [| eauto].
  now apply SrtFacts.split_nl_not_nil in Hs.
Qed.

Lemma split_nl_app (a b : string) :
  split_nl (a ++ b)
  = (append_to_last (split_nl a) (hd "" (split_nl b)) ++ tl (split_nl b))%list.
Proof.
  destruct (split_nl_cons b) as (h & t & Hb). rewrite Hb. cbn [hd tl].
  induction a as [|c a IH].
  - rewrite append_nil_l. exact Hb.
  - rewrite append_cons. destruct (split_nl_cons a) as (x & xs & Ha).
    rewrite Ha in IH. destruct (Ascii.eqb c nl) eqn:Hc.
    + apply eqb_nl_true in Hc. subst c.
      rewrite !split_nl_cons_nl, IH, Ha. reflexivity.
    + rewrite (split_nl_cons_other c a x xs Hc Ha).
      destruct xs as [|y ys].
      * cbn [append_to_last app] in IH |- *.
        now rewrite (split_nl_cons_other c _ _ _ Hc IH).
      * change (append_to_last (x :: y :: ys) h)
          with (x :: append_to_last (y :: ys) h) in IH.
        change (append_to_last (String c x :: y :: ys) h)
          with (String c x :: append_to_last (y :: ys) h).
        now rewrite (split_nl_cons_other c _ _ _ Hc IH).
Qed.

Lemma split_nl_app_nl (a b : string) :
  split_nl (a ++ String nl b) = (split_nl a ++ split_nl b)%list.
Proof.
  induction a as [|c a IH]; [reflexivity |].
  rewrite append_cons. destruct (split_nl_cons a) as (x & xs & Ha).
  rewrite Ha in IH. destruct (Ascii.eqb c nl) eqn:Hc.
  - apply eqb_nl_true in Hc. subst c.
    now rewrite !split_nl_cons_nl, IH, Ha.
  - rewrite (split_nl_cons_other c a x xs Hc Ha).
    now rewrite (split_nl_cons_other c _ _ _ Hc IH).
Qed.

(** *** The lines that count *)

Lemma significant_lines_cons (line : string) (lines : list string) :
  significant_lines (line :: lines)
  = match strip line with
    | EmptyString => significant_lines lines
    | _ => strip line :: significant_lines lines
    end.
Proof.
  unfold significant_lines. cbn [map]. rewrite filter_cons.
  destruct (strip line); [now rewrite decide_False by auto |].
  now rewrite decide_True by discriminate.
Qed.

Lemma significant_lines_app (lines lines' : list string) :
  significant_lines (lines ++ lines')
  = (significant_lines lines ++ significant_lines lines')%list.
Proof. unfold significant_lines. now rewrite map_app, filter_app. Qed.

Lemma significant_lines_blank (lines : list string) :
  Forall (fun line => rstrip line = "") lines -> significant_lines lines = [].
Proof.
  induction 1 as [|line lines Hline _ IH]; [reflexivity |].
  rewrite significant_lines_cons, (rstrip_empty_strip line Hline). exact IH.
Qed.

Lemma strip_app_blank (a b : string) :
  rstrip b = "" -> strip (a ++ b) = strip a.
Proof. intros Hb. unfold strip. now rewrite rstrip_app_blank. Qed.

Lemma significant_append_to_last (pieces : list string) (s : string) :
  pieces <> [] -> rstrip s = "" ->
  significant_lines (append_to_last pieces s) = significant_lines pieces.
Proof.
  intros Hne Hs. induction pieces as [|p pieces IH]; [contradiction |].
  destruct pieces as [|q pieces].
  - cbn [append_to_last]. rewrite !significant_lines_cons.
    now rewrite strip_app_blank.
  - change (append_to_last (p :: q :: pieces) s)
      with (p :: append_to_last (q :: pieces) s).
    rewrite (significant_lines_cons p (append_to_last (q :: pieces) s)).
    rewrite (significant_lines_cons p (q :: pieces)).
    now rewrite IH by discriminate.
Qed.

Lemma rstrip_cons_empty (c : ascii) (s : string) :
  rstrip (String c s) = "" -> is_space c = true /\ rstrip s = "".
Proof.
  cbn [rstrip]. destruct (rstrip s); [| discriminate].
  destruct (is_space c); [auto | discriminate].
Qed.

Lemma split_nl_blank (w : string) :
  rstrip w = "" -> Forall (fun line => rstrip line = "") (split_nl w).
Proof.
  induction w as [|c w IH]; intros Hw; [repeat constructor |].
  apply rstrip_cons_empty in Hw as [Hc Hw]. specialize (IH Hw).
  destruct (split_nl_cons w) as (h & t & Hsplit). rewrite Hsplit in IH.
  apply Forall_cons in IH as [Hh Ht].
  destruct (Ascii.eqb c nl) eqn:Hnl.
  - apply eqb_nl_true in Hnl. subst c.
    rewrite split_nl_cons_nl, Hsplit. repeat constructor; assumption.
  - rewrite (split_nl_cons_other c w h t Hnl Hsplit).
    constructor; [| exact Ht]. cbn [rstrip]. now rewrite Hh, Hc.
Qed.

Lemma significant_lines_rstrip (s : string) :
  significant_lines (split_nl (rstrip s)) = significant_lines (split_nl s).
Proof.
  destruct (rstrip_decompose s) as (w & Hs & Hw).
  remember (rstrip s) as r eqn:Hr. rewrite Hs at 1. clear Hr Hs.
  rewrite split_nl_app.
  pose proof (split_nl_blank w Hw) as Hblank.
  destruct (split_nl_cons w) as (h & t & Hsplit). rewrite Hsplit in Hblank |- *.
  apply Forall_cons in Hblank as [Hh Ht]. cbn [hd tl].
  rewrite significant_lines_app, (significant_lines_blank t Ht), app_nil_r.
  symmetry. apply significant_append_to_last; [| exact Hh].
  apply SrtFacts.split_nl_not_nil.
Qed.

Lemma significant_lines_lstrip (s : string) :
  significant_lines (split_nl (lstrip s)) = significant_lines (split_nl s).
Proof.
  induction s as [|c s IH]; [reflexivity |].
  cbn [lstrip]. destruct (is_space c) eqn:Hc; [| reflexivity].
  rewrite IH. destruct (split_nl_cons s) as (h & t & Hsplit).
  destruct (Ascii.eqb c nl) eqn:Hnl.
  - apply eqb_nl_true in Hnl. subst c.
    now rewrite split_nl_cons_nl, significant_lines_cons.
  - rewrite (split_nl_cons_other c s h t Hnl Hsplit), Hsplit.
    now rewrite !significant_lines_cons, strip_space_cons.
Qed.

Lemma significant_lines_strip (s : string) :
  significant_lines (split_nl (strip s)) = significant_lines (split_nl s).
Proof.
  unfold strip. now rewrite significant_lines_lstrip, significant_lines_rstrip.
Qed.

(** *** The parser reads the lines that count *)

Lemma parse_line_strip (ps : parser_state) (raw : string) :
  parse_line ps (strip raw) = parse_line ps raw.
Proof. unfold parse_line. now rewrite strip_idem. Qed.

Lemma parse_lines_significant (lines : list string) :
  forall ps : parser_state,
    parse_lines ps (significant_lines lines) = parse_lines ps lines.
Proof.
  induction lines as [|raw lines IH]; intros ps; [reflexivity |].
  rewrite significant_lines_cons. cbn [parse_lines fold_left].
  change (fold_left parse_line lines ?p) with (parse_lines p lines).
  destruct (strip raw) as [|c line] eqn:Hraw.
  - rewrite (parse_line_blank ps raw Hraw). apply IH.
  - cbn [parse_lines fold_left].
    change (fold_left parse_line ?l ?p) with (parse_lines p l).
    rewrite <- Hraw, parse_line_strip. apply IH.
Qed.

Lemma entry_ids_significant (lines : list string) :
  entry_ids (significant_lines lines) = entry_ids lines.
Proof.
  induction lines as [|raw lines IH]; [reflexivity |].
  rewrite significant_lines_cons, (entry_ids_cons raw).
  destruct (strip raw) as [|c line] eqn:Hraw.
  - now rewrite match_new_block_empty.
  - rewrite entry_ids_cons, <- Hraw, strip_idem, IH. reflexivity.
Qed.

Lemma parse_llm_response_lines (reply : string) :
  parse_llm_response reply
  = flush (parse_lines parser_init (significant_lines (split_nl reply))).
Proof.
  unfold parse_llm_response.
  now rewrite <- (parse_lines_significant (split_nl (strip reply))),
    significant_lines_strip.
Qed.

End LineFacts.

(** X12.  The dictionary of a reply depends only on its lines as the loop
    sees them, stripped and without the blank ones: two replies that differ
    in indentation, in white space at the end of their lines (such as a
    carriage return) or in blank lines have the same dictionary. *)
Theorem parse_llm_response_significant (reply reply' : string) :
  significant_lines (Py.split_nl reply)
  = significant_lines (Py.split_nl reply') ->
  parse_llm_response reply = parse_llm_response reply'.
Proof.
  intros Hsame. rewrite !LineFacts.parse_llm_response_lines.
  now rewrite Hsame.
Qed.

Lemma parse_llm_response_significant_witness :
  significant_lines
    (Py.split_nl ("1 >>> Hello" ++ lf ++ "world" ++ lf ++ "2 >>> Bye"))
  = significant_lines
      (Py.split_nl
         (lf ++ "  1 >>> Hello" ++ String "013" lf ++ "world  "
          ++ String "013" lf ++ lf ++ "2 >>> Bye" ++ String "013" lf))
  /\ parse_llm_response ("1 >>> Hello" ++ lf ++ "world" ++ lf ++ "2 >>> Bye")
     = parse_llm_response
         (lf ++ "  1 >>> Hello" ++ String "013" lf ++ "world  "
          ++ String "013" lf ++ lf ++ "2 >>> Bye" ++ String "013" lf).
Proof.
  assert (Hsame :
            significant_lines
              (Py.split_nl
                 ("1 >>> Hello" ++ lf ++ "world" ++ lf ++ "2 >>> Bye"))
            = significant_lines
                (Py.split_nl
                   (lf ++ "  1 >>> Hello" ++ String "013" lf ++ "world  "
                    ++ String "013" lf ++ lf ++ "2 >>> Bye"
                    ++ String "013" lf)))
    by (vm_compute; reflexivity).
  exact (conj Hsame (parse_llm_response_significant _ _ Hsame)).
Defined.

(** ** The prompt, read back by the Response Parser *)

Module PromptFacts.
Import Py PyFacts StripFacts LineFacts.

Lemma all_digits_one_line (s : string) :
  all_digits s = true -> one_line s = true.
Proof.
  induction s as [|c s IH]; intros Hs; [reflexivity |].
  cbn in Hs |- *. apply andb_prop in Hs as [Hc Hs].
  now rewrite (digit_not_nl c Hc), IH.
Qed.

Lemma split_nl_head (a b : string) :
  one_line a = true ->
  exists h t, split_nl b = h :: t /\ split_nl (a ++ b) = (a ++ h) :: t.
Proof.
  intros Ha. destruct (split_nl_cons b) as (h & t & Hb).
  exists h, t. split; [exact Hb |].
  induction a as [|c a IH]; [exact Hb |].
  cbn in Ha. apply andb_prop in Ha as [Hc Ha]. apply negb_true_iff in Hc.
  rewrite !append_cons. now apply split_nl_cons_other; [| apply IH].
Qed.

Lemma span_digits_app (id rest : string) (c : ascii) :
  all_digits id = true -> is_digit c = false ->
  span_digits (id ++ String c rest) = (id, String c rest).
Proof.
  intros Hid Hc. induction id as [|d id IH].
  - rewrite append_nil_l. cbn [span_digits]. now rewrite Hc.
  - cbn in Hid. apply andb_prop in Hid as [Hd Hid].
    rewrite append_cons. cbn [span_digits]. now rewrite Hd, IH.
Qed.

(** The line of a record, stripped, still starts with the id and the
    delimiter. *)
Lemma strip_prompt_head (id h : string) :
  all_digits id = true -> id <> "" ->
  exists z, strip (id ++ " >>> " ++ h) = id ++ " >>>" ++ z.
Proof.
  intros Hid Hne.
  assert (Hl : forall z, lstrip (id ++ " >>>" ++ z) = id ++ " >>>" ++ z).
  { intros z. destruct id as [|d id]; [contradiction |].
    cbn in Hid. apply andb_prop in Hid as [Hd _].
    rewrite append_cons. now apply lstrip_head, digit_not_space. }
  assert (Hsplit : id ++ " >>> " ++ h = id ++ " >>>" ++ (" " ++ h))
    by reflexivity.
  unfold strip. rewrite Hsplit.
  destruct (rstrip (" " ++ h)) as [|x r] eqn:Hr.
  - exists "". rewrite <- append_assoc, rstrip_app_blank by exact Hr.
    rewrite rstrip_app by (vm_compute; discriminate).
    change (rstrip " >>>") with " >>>".
    rewrite <- (Hl ""). now rewrite append_nil_r.
  - exists (String x r).
    rewrite <- append_assoc, rstrip_app by (rewrite Hr; discriminate).
    rewrite Hr, append_assoc. apply Hl.
Qed.

Lemma match_prompt_head (id z : string) :
  all_digits id = true -> id <> "" ->
  match_new_block (id ++ " >>>" ++ z) = Some (id, lstrip z).
Proof.
  intros Hid Hne. unfold match_new_block.
  change (id ++ " >>>" ++ z) with (id ++ String " " (">>>" ++ z)).
  rewrite span_digits_app by (assumption || reflexivity).
  destruct id; [contradiction | reflexivity].
Qed.

Lemma entry_ids_intro (id text_part raw : string) (lines : list string) :
  raw ∈ lines -> match_new_block (strip raw) = Some (id, text_part) ->
  id ∈ entry_ids lines.
Proof.
  intros Hin Hm. unfold entry_ids. apply list_elem_of_omap.
  exists raw. split; [exact Hin |]. now rewrite Hm.
Qed.

Lemma prompt_line_entry (sub : Sub) :
  all_digits (index sub) = true -> index sub <> "" ->
  index sub ∈ entry_ids (split_nl (prompt_line sub)).
Proof.
  intros Hid Hne. unfold prompt_line.
  destruct (split_nl_head " >>> " (text sub) eq_refl) as (h & t & _ & Hs).
  destruct (split_nl_head (index sub) (" >>> " ++ text sub)
              (all_digits_one_line _ Hid)) as (h' & t' & Hs' & Hsplit).
  rewrite Hs in Hs'. injection Hs' as <- <-. rewrite Hsplit.
  destruct (strip_prompt_head (index sub) h Hid Hne) as (z & Hz).
  apply entry_ids_intro with (lstrip z) (index sub ++ " >>> " ++ h);
    [constructor |].
  rewrite Hz. now apply match_prompt_head.
Qed.

Lemma split_nl_join_elem (items : list string) (item line : string) :
  item ∈ items -> line ∈ split_nl item -> line ∈ split_nl (join_nl items).
Proof.
  intros Hitem Hline. induction items as [|i items IH]; [inversion Hitem |].
  destruct items as [|j items].
  - apply list_elem_of_singleton in Hitem as ->. exact Hline.
  - rewrite SrtFacts.join_nl_cons, split_nl_app_nl. apply elem_of_app.
    apply elem_of_cons in Hitem as [->|Hitem]; [now left |].
    right. now apply IH.
Qed.

Lemma entry_ids_mono (id : string) (lines lines' : list string) :
  (forall line, line ∈ lines -> line ∈ lines') ->
  id ∈ entry_ids lines -> id ∈ entry_ids lines'.
Proof.
  intros Hsub Hin. apply entry_ids_inv in Hin as (raw & text_part & Hraw & Hm).
  apply entry_ids_intro with text_part raw; [now apply Hsub | exact Hm].
Qed.

Lemma prompt_entries (batch : list Sub) (target_lang : string) (sub : Sub) :
  sub ∈ batch ->
  all_digits (index sub) = true -> index sub <> "" ->
  is_Some (parse_llm_response (generate_prompt batch target_lang).2
           !! index sub).
Proof.
  intros Hin Hid Hne. unfold parse_llm_response. apply flush_keys. right.
  rewrite <- entry_ids_significant, significant_lines_strip,
    entry_ids_significant.
  apply entry_ids_mono with (split_nl (prompt_line sub));
    [| now apply prompt_line_entry].
  intros line Hline. cbn [generate_prompt snd].
  apply split_nl_join_elem with (prompt_line sub); [| exact Hline].
  change (prompt_line sub ∈ prompt_line <$> batch).
  now apply list_elem_of_fmap_2.
Qed.

End PromptFacts.

(** X13.  The user content that the Prompt Builder makes for a batch is in
    the format that the Response Parser reads: when the ids of the batch
    are non-empty strings of digits, its dictionary has every id of the
    batch.  A backend that sends the user content back is thus accepted at
    the first attempt. *)
Theorem generate_prompt_parsed_back (batch : list Sub) (args : Args)
    (depth : nat) :
  Forall (fun sub => all_digits (index sub) = true /\ index sub <> "") batch ->
  (0 < retries args)%Z ->
  let user_input := (generate_prompt batch (lang args)).2 in
  (forall sub, sub ∈ batch ->
               is_Some (parse_llm_response user_input !! index sub))
  /\ missing_ids (map index batch) (parse_llm_response user_input) = []
  /\ @process_batch unit echo_backend batch args depth tt
     = Ok (parse_llm_response user_input, tt, []).
Proof.
  intros Hids Hretries user_input.
  assert (Hall : forall sub, sub ∈ batch ->
                   is_Some (parse_llm_response user_input !! index sub)).
  { intros sub Hin. rewrite Forall_forall in Hids.
    destruct (Hids sub Hin) as [Hd Hne].
    now apply PromptFacts.prompt_entries. }
  assert (Hmiss : missing_ids (map index batch)
                    (parse_llm_response user_input) = []).
  { apply missing_ids_nil. intros id Hid.
    apply list_elem_of_fmap in Hid as (sub & -> & Hin). now apply Hall. }
  split; [exact Hall |]. split; [exact Hmiss |].
  unfold process_batch. apply process_batch_recursive_success.
  unfold attempts_of.
  destruct (Z.to_nat (retries args)) as [|n] eqn:Hn; [lia |].
  now apply attempts_complete.
Qed.

Lemma generate_prompt_parsed_back_witness :
  Forall (fun sub => all_digits (index sub) = true /\ index sub <> "")
    batch_3456
  /\ (0 < retries sample_args)%Z
  /\ @process_batch unit echo_backend batch_3456 sample_args 0 tt
     = Ok ({[ "3" := "three"; "4" := "four"; "5" := "five"; "6" := "six" ]},
           tt, []).
Proof.
  assert (Hids : Forall (fun sub => all_digits (index sub) = true
                                    /\ index sub <> "") batch_3456)
    by (repeat constructor; discriminate).
  assert (Hretries : (0 < retries sample_args)%Z) by (vm_compute; reflexivity).
  split; [exact Hids |]. split; [exact Hretries |].
  rewrite (proj2 (proj2 (generate_prompt_parsed_back batch_3456 sample_args 0
                           Hids Hretries))).
  vm_compute. reflexivity.
Defined.

(** ** The records of the Subtitle Parser *)

Module RecordFacts.
Import Py PyFacts StripFacts.

Lemma all_digits_sub_non_digits (s : string) :
  all_digits (sub_non_digits s) = true.
Proof.
  induction s as [|c s IH]; [reflexivity |].
  cbn [sub_non_digits]. destruct (is_digit c) eqn:Hc; [| exact IH].
  cbn. now rewrite Hc, IH.
Qed.

Lemma split_nl_lines (s : string) :
  Forall (fun line => one_line line = true) (split_nl s).
Proof.
  induction s as [|c s IH]; [repeat constructor |].
  cbn [split_nl]. destruct (Ascii.eqb c nl) eqn:Hc; [now constructor |].
  destruct (split_nl s) as [|h t]; [repeat constructor; cbn; now rewrite Hc |].
  apply Forall_cons in IH as [Hh Ht].
  constructor; [| exact Ht]. cbn. now rewrite Hc, Hh.
Qed.

Lemma one_line_lstrip (s : string) :
  one_line s = true -> one_line (lstrip s) = true.
Proof.
  induction s as [|c s IH]; intros Hs; [reflexivity |].
  cbn [lstrip]. destruct (is_space c); [| exact Hs].
  cbn in Hs. apply andb_prop in Hs as [_ Hs]. now apply IH.
Qed.

Lemma one_line_rstrip (s : string) :
  one_line s = true -> one_line (rstrip s) = true.
Proof.
  induction s as [|c s IH]; intros Hs; [reflexivity |].
  cbn in Hs. apply andb_prop in Hs as [Hc Hs]. specialize (IH Hs).
  cbn [rstrip]. destruct (rstrip s) as [|x r].
  - destruct (is_space c); [reflexivity |]. cbn. now rewrite Hc.
  - cbn [one_line] in IH |- *. now rewrite Hc, IH.
Qed.

Lemma one_line_strip (s : string) :
  one_line s = true -> one_line (strip s) = true.
Proof. intros Hs. now apply one_line_lstrip, one_line_rstrip. Qed.

Lemma parse_block_record (block : string) (sub : Sub) :
  parse_block block = Some sub ->
  all_digits (index sub) = true
  /\ trimmed (timestamp sub) = true
  /\ one_line (timestamp sub) = true
  /\ translated_text sub = "".
Proof.
  unfold parse_block. pose proof (split_nl_lines block) as Hlines.
  destruct (split_nl block) as [|l0 [|l1 [|l2 rest]]]; try discriminate.
  intros [= <-]. cbn [index timestamp translated_text].
  apply Forall_cons in Hlines as [_ Hlines].
  apply Forall_cons in Hlines as [H1 _].
  repeat split.
  - apply all_digits_sub_non_digits.
  - unfold trimmed. rewrite strip_idem. apply String.eqb_refl.
  - now apply one_line_strip.
Qed.

End RecordFacts.

(** X14.  Every record of the Subtitle Parser has an id made of digits
    only (possibly none), a timecode that is one line without white space
    at its ends, a source text that is not empty, and an empty
    translation. *)
Theorem parse_srt_records (content : string) (sub : Sub) :
  sub ∈ parse_srt content ->
  all_digits (index sub) = true
  /\ trimmed (timestamp sub) = true
  /\ one_line (timestamp sub) = true
  /\ text sub <> ""
  /\ translated_text sub = "".
Proof.
  intros Hin. pose proof (SrtFacts.parse_srt_text content sub Hin) as Htext.
  unfold parse_srt in Hin.
  apply list_elem_of_omap in Hin as (block & _ & Hparse).
  destruct (RecordFacts.parse_block_record block sub Hparse)
    as (Hi & Ht & Hl & Hx).
  auto.
Qed.

Lemma parse_srt_records_witness :
  sample_sub "" "Hi" ∈ parse_srt unnumbered_file
  /\ all_digits (index (sample_sub "" "Hi")) = true
  /\ trimmed (timestamp (sample_sub "" "Hi")) = true
  /\ one_line (timestamp (sample_sub "" "Hi")) = true
  /\ text (sample_sub "" "Hi") <> ""
  /\ translated_text (sample_sub "" "Hi") = "".
Proof.
  assert (Hin : sample_sub "" "Hi" ∈ parse_srt unnumbered_file)
    by (vm_compute; constructor).
  exact (conj Hin (parse_srt_records unnumbered_file _ Hin)).
Defined.

(** ** Runs without attempts *)

Section NoRetries.
Context {B : Type} `{Backend B}.
Variable args : Args.
Hypothesis no_retries : (retries args <= 0)%Z.

Lemma attempts_of_no_retries (batch : list Sub) (depth : nat) (st : B) :
  attempts_of batch args depth st = (None, st, []).
Proof.
  unfold attempts_of. now replace (Z.to_nat (retries args)) with 0%nat by lia.
Qed.

Lemma process_batch_recursive_no_retries (fuel : nat) :
  forall (batch : list Sub) (depth : nat) (st : B),
    (1 <= length batch <= 2 ^ fuel)%nat ->
    exists log,
      process_batch_recursive (S fuel) batch args depth st = Ok (∅, st, log).
Proof.
  induction fuel as [|fuel IH]; intros batch depth st Hlen;
    pose proof (attempts_of_no_retries batch depth st) as Hatt.
  - destruct batch as [|sub [|sub' batch]]; cbn in Hlen; try lia.
    rewrite (process_batch_recursive_single _ _ _ _ _ _ _ Hatt). eauto.
  - destruct (decide (length batch = 1%nat)) as [Hone|Hmore].
    + destruct batch as [|sub [|sub' batch]]; try discriminate.
      rewrite (process_batch_recursive_single _ _ _ _ _ _ _ Hatt). eauto.
    + assert (Hn : (2 <= length batch <= 2 ^ S fuel)%nat) by lia.
      destruct (halves_bound _ _ Hn) as [Hleft Hright].
      rewrite (process_batch_recursive_bisect _ _ _ _ _ _ _ Hatt) by lia.
      destruct (IH (take (length batch / 2) batch) (S depth) st)
        as (ll & Hl); [rewrite length_take; lia |].
      destruct (IH (drop (length batch / 2) batch) (S depth) st)
        as (lr & Hr); [rewrite length_drop; lia |].
      rewrite Hl. cbn [mbind result_mbind result_bind].
      rewrite Hr. cbn [mbind result_mbind result_bind].
      rewrite (left_id_L ∅ (∪)). eauto.
Qed.

Lemma process_batch_no_retries (batch : list Sub) (depth : nat) (st st' : B)
    (m : gmap string string) (log : list event) :
  process_batch batch args depth st = Ok (m, st', log) ->
  m = ∅ /\ st' = st.
Proof.
  intros Hrun. destruct batch as [|sub batch].
  - unfold process_batch in Hrun.
    cbn [process_batch_recursive generate_prompt length] in Hrun.
    pose proof (attempts_of_no_retries [] depth st) as Hatt.
    unfold attempts_of in Hatt. cbn [generate_prompt fst snd] in Hatt.
    rewrite Hatt in Hrun. discriminate.
  - destruct (process_batch_recursive_no_retries (length (sub :: batch))
                (sub :: batch) depth st) as (log' & Hrun').
    { pose proof (Nat.pow_gt_lin_r 2 (length (sub :: batch))).
      cbn [length] in *. lia. }
    unfold process_batch in Hrun. rewrite Hrun' in Hrun.
    now injection Hrun as <- <- _.
Qed.

Lemma translate_batches_no_retries (batches : list (list nat)) :
  forall (store store' : list Sub) (st st' : B) (log : list event),
    translate_batches batches args store st = Ok (store', st', log) ->
    st' = st.
Proof.
  induction batches as [|batch batches IH]; intros store store' st st' log.
  - now intros [= _ <- _].
  - cbn [translate_batches].
    destruct (process_batch (batch_records store batch) args 0 st)
      as [[[m st1] log1]| |] eqn:Hrun; try discriminate.
    cbn [mbind result_mbind result_bind].
    destruct (translate_batches batches args (merge_batch m batch store) st1)
      as [[[store2 st2] log2]| |] eqn:Hrest; try discriminate.
    cbn [mbind result_mbind result_bind]. intros [= _ <- _].
    apply process_batch_no_retries in Hrun as [_ ->].
    now apply IH in Hrest.
Qed.

End NoRetries.

Lemma records_by_fields (subs subs' : list Sub) :
  map index subs = map index subs' ->
  map timestamp subs = map timestamp subs' ->
  map text subs = map text subs' ->
  map translated_text subs = map translated_text subs' ->
  subs = subs'.
Proof.
  revert subs'. induction subs as [|sub subs IH]; intros [|sub' subs'];
    try discriminate; [reflexivity |].
  cbn [map]. intros [= Hi Hi'] [= Ht Ht'] [= Hx Hx'] [= Hr Hr'].
  rewrite (IH subs') by assumption.
  destruct sub, sub'. cbn in *. now subst.
Qed.

(** X15.  When the number of retries is zero or negative, a run with a
    positive batch size never calls the backend (its state is unchanged),
    and its output is every parsed record with the source text in the
    place of the translation. *)
Theorem main_no_retries {B : Type} `{Backend B} (args : Args)
    (input_content : string) (st : B) :
  (retries args <= 0)%Z ->
  (0 < batch_size args)%Z ->
  exists log,
    main args (Some input_content) st
    = Ok (write_srt (map keep_source (parse_srt input_content)), st, log).
Proof.
  intros Hretries Hsize.
  destruct (run_pipeline_total args input_content st)
    as (subtitles & st' & log & Hrun); [lia |].
  exists log. cbn [main]. rewrite Hrun.
  cbn [mbind result_mbind result_bind].
  assert (Hst : st' = st).
  { unfold run_pipeline in Hrun.
    destruct (range_from_zero _ _) as [starts| |]; try discriminate.
    cbn [mbind result_mbind result_bind] in Hrun.
    now apply (translate_batches_no_retries args Hretries) in Hrun. }
  destruct (run_pipeline_fields _ _ _ _ _ _ Hrun) as (Hi & Ht & Hx).
  assert (Hsubs : subtitles = map keep_source (parse_srt input_content)).
  { apply records_by_fields; rewrite ?map_map; cbn [keep_source index
      timestamp text translated_text]; try assumption.
    change (map (fun x : Sub => text x) (parse_srt input_content))
      with (map text (parse_srt input_content)).
    rewrite <- Hx. apply map_ext_in. intros sub Hin.
    apply list_elem_of_In in Hin.
    destruct (run_pipeline_logged _ _ _ _ _ _ sub Hsize Hrun Hin)
      as [(records & st0 & st1 & m & log1 & Hbatch & _ & Hm)|[Hsame _]];
      [| exact Hsame].
    apply (process_batch_no_retries args Hretries) in Hbatch as [-> _].
    now rewrite lookup_empty in Hm. }
  now rewrite Hsubs, Hst.
Qed.

Lemma main_no_retries_witness :
  (retries {| lang := "Spanish"; model := "llama3"; batch_size := 20;
              retries := 0 |} <= 0)%Z
  /\ (0 < batch_size {| lang := "Spanish"; model := "llama3";
                        batch_size := 20; retries := 0 |})%Z
  /\ exists log,
      @main _ scripted_backend
        {| lang := "Spanish"; model := "llama3"; batch_size := 20;
           retries := 0 |}
        (Some sample_file) [Reply "7 >>> Hola"]
      = Ok (write_srt (map keep_source (parse_srt sample_file)),
            [Reply "7 >>> Hola"], log).
Proof.
  assert (Hr : (retries {| lang := "Spanish"; model := "llama3";
                           batch_size := 20; retries := 0 |} <= 0)%Z)
    by (vm_compute; discriminate).
  assert (Hs : (0 < batch_size {| lang := "Spanish"; model := "llama3";
                                  batch_size := 20; retries := 0 |})%Z)
    by (vm_compute; reflexivity).
  exact (conj Hr (conj Hs
           (@main_no_retries _ scripted_backend _ sample_file
              [Reply "7 >>> Hola"] Hr Hs))).
Defined.

(** ** The batches of the driver *)

Section Chunks.
Variables (total k : nat).
Hypothesis k_positive : (0 < k)%nat.

Lemma slices_concat (q : nat) :
  (q * k < total + k)%nat ->
  concat (map (fun j => slice_positions total (j * k) k) (seq 0 q))
  = seq 0 (Nat.min (q * k) total).
Proof.
  induction q as [|q IH]; intros Hq; [reflexivity |].
  rewrite seq_S, map_app, concat_app, IH by lia.
  cbn [map concat plus]. rewrite app_nil_r. unfold slice_positions.
  replace (Nat.min (q * k) total) with (q * k)%nat by lia.
  replace (Nat.min (S q * k) total)
    with (q * k + (Nat.min (q * k + k) total - q * k))%nat by lia.
  now rewrite seq_app.
Qed.

Lemma chunk_count_bounds :
  ((total + k - 1) / k * k < total + k)%nat
  /\ (total <= (total + k - 1) / k * k)%nat.
Proof.
  pose proof (Nat.div_mod_eq (total + k - 1) k) as Hdiv.
  pose proof (Nat.mod_upper_bound (total + k - 1) k) as Hmod. nia.
Qed.

End Chunks.

(** X16.  For a positive batch size the batches of the driver are the
    positions of the records cut into consecutive runs: put end to end
    they give every position once and in order, and each of them holds at
    least one and at most [batch_size] positions. *)
Theorem batches_partition (total : nat) (size : Z) :
  (0 < size)%Z ->
  exists starts,
    range_from_zero total size = Ok starts
    /\ concat (map (fun i => slice_positions total i (Z.to_nat size)) starts)
       = seq 0 total
    /\ Forall (fun batch => (1 <= length batch <= Z.to_nat size)%nat)
         (map (fun i => slice_positions total i (Z.to_nat size)) starts).
Proof.
  intros Hsize. unfold range_from_zero.
  destruct (size =? 0)%Z eqn:H0; [apply Z.eqb_eq in H0; lia |].
  destruct (size <? 0)%Z eqn:Hneg; [apply Z.ltb_lt in Hneg; lia |].
  set (k := Z.to_nat size). assert (Hk : (0 < k)%nat) by (subst k; lia).
  destruct (chunk_count_bounds total k Hk) as [Hup Hlow].
  eexists. split; [reflexivity |]. split.
  - rewrite map_map, (slices_concat total k Hk) by exact Hup.
    f_equal. lia.
  - apply Forall_forall. intros batch Hbatch.
    apply list_elem_of_fmap in Hbatch as (i & -> & Hi).
    apply list_elem_of_fmap in Hi as (j & -> & Hj).
    apply elem_of_seq in Hj as [_ Hj]. cbn in Hj.
    unfold slice_positions. rewrite length_seq.
    assert (Hlt : (j * k < total)%nat) by nia. lia.
Qed.

Lemma batches_partition_witness :
  (0 < 2)%Z
  /\ exists starts,
      range_from_zero 5 2 = Ok starts
      /\ concat (map (fun i => slice_positions 5 i (Z.to_nat 2)) starts)
         = seq 0 5
      /\ Forall (fun batch => (1 <= length batch <= Z.to_nat 2)%nat)
           (map (fun i => slice_positions 5 i (Z.to_nat 2)) starts).
Proof.
  assert (Hsize : (0 < 2)%Z) by lia.
  exact (conj Hsize (batches_partition 5 2 Hsize)).
Defined.

Lemma main_completes_witness :
  batch_size sample_args <> 0%Z
  /\ (exists out st' log,
         @main unit echo_backend sample_args (Some sample_file) tt
         = Ok (out, st', log))
  /\ @main unit echo_backend
       {| lang := "Spanish"; model := "llama3"; batch_size := 0;
          retries := 2 |} (Some sample_file) tt
     = Raise ValueError.
Proof.
  assert (Hsize : batch_size sample_args <> 0%Z) by (vm_compute; discriminate).
  exact (conj Hsize
           (conj (proj1 (@main_completes unit echo_backend sample_args
                           sample_file tt) Hsize)
              (proj1 (proj2 (@main_completes unit echo_backend
                               {| lang := "Spanish"; model := "llama3";
                                  batch_size := 0; retries := 2 |}
                               sample_file tt)) eq_refl))).
Defined.

(** ** The dictionaries of a run *)

Section RunMapsFacts.
Context {B : Type} `{Backend B}.

Lemma batch_records_ext (store store' : list Sub) (batch : list nat) :
  (forall pos, pos ∈ batch -> store' !! pos = store !! pos) ->
  batch_records store' batch = batch_records store batch.
Proof.
  unfold batch_records. induction batch as [|p batch IH]; intros Hext;
    [reflexivity |].
  cbn [omap list_omap]. rewrite (Hext p) by constructor.
  change (list_omap ?f ?l) with (omap f l).
  rewrite IH; [reflexivity |].
  intros pos Hpos. apply Hext. now constructor.
Qed.

Lemma omap_lookup_seq (l : list Sub) (n : nat) :
  forall i, (i + n <= length l)%nat ->
            omap (fun pos => l !! pos) (seq i n) = take n (drop i l).
Proof.
  induction n as [|n IH]; intros i Hlen; [reflexivity |].
  assert (Hi : (i < length l)%nat) by lia.
  apply lookup_lt_is_Some in Hi as [x Hx].
  cbn [seq omap list_omap]. rewrite Hx.
  change (list_omap ?f ?k) with (omap f k).
  rewrite IH by lia. rewrite (drop_S l x i Hx). reflexivity.
Qed.

(** The records at the positions of a slice are the slice of the
    records. *)
Lemma batch_records_slice (l : list Sub) (i k : nat) :
  batch_records l (slice_positions (length l) i k) = take k (drop i l).
Proof.
  unfold batch_records, slice_positions.
  destruct (decide (i + k <= length l)%nat) as [Hle|Hgt].
  - replace (Nat.min (i + k) (length l) - i)%nat with k by lia.
    now apply omap_lookup_seq.
  - destruct (decide (i <= length l)%nat) as [Hi|Hi].
    + rewrite omap_lookup_seq by lia.
      rewrite !take_ge; [reflexivity | |]; rewrite length_drop; lia.
    + replace (Nat.min (i + k) (length l) - i)%nat with 0%nat by lia.
      rewrite drop_ge by lia. now rewrite take_nil.
Qed.

Lemma batch_maps_ext (args : Args) (chunks : list (list Sub)) (st : B) :
  forall chunks', chunks' = chunks ->
                  batch_maps chunks' args st = batch_maps chunks args st.
Proof. now intros chunks' ->. Qed.

(** The loop over disjoint batches, seen through the dictionaries of the
    translator: a record of the batch [j] ends as the merge of the
    dictionary [j] into what it was. *)
Lemma translate_batches_maps (args : Args) (batches : list (list nat)) :
  forall (store store' : list Sub) (st st' : B) (log : list event),
    batches_disjoint batches ->
    translate_batches batches args store st = Ok (store', st', log) ->
    exists maps,
      batch_maps (map (batch_records store) batches) args st
      = Ok (maps, st', log)
      /\ forall j batch,
          batches !! j = Some batch ->
          exists m,
            maps !! j = Some m
            /\ forall pos, pos ∈ batch ->
                           store' !! pos = merge_sub m <$> store !! pos.
Proof.
  induction batches as [|batch batches IH];
    intros store store' st st' log Hdisj.
  - intros [= <- <- <-]. exists []. split; [reflexivity |].
    intros j b Hj. discriminate.
  - destruct Hdisj as [Hhead Htail]. cbn [translate_batches].
    destruct (process_batch (batch_records store batch) args 0 st)
      as [[[m st1] log1]| |] eqn:Hrun; try discriminate.
    cbn [mbind result_mbind result_bind].
    destruct (translate_batches batches args (merge_batch m batch store) st1)
      as [[[store2 st2] log2]| |] eqn:Hrest; try discriminate.
    cbn [mbind result_mbind result_bind]. intros [= <- <- <-].
    destruct (IH _ _ _ _ _ Htail Hrest) as (maps & Hmaps & Hmerge).
    assert (Hother : forall other pos,
               other ∈ batches -> pos ∈ other -> pos ∉ batch).
    { intros other pos Hin Hpos Hb. rewrite Forall_forall in Hhead.
      exact (Hhead other Hin pos Hb Hpos). }
    assert (Hsame : map (batch_records (merge_batch m batch store)) batches
                    = map (batch_records store) batches).
    { apply map_ext_in. intros other Hin. apply list_elem_of_In in Hin.
      apply batch_records_ext. intros pos Hpos.
      rewrite merge_batch_lookup, decide_False; [reflexivity |].
      now apply Hother with other. }
    rewrite Hsame in Hmaps.
    exists (m :: maps). split.
    + cbn [map batch_maps]. rewrite Hrun.
      cbn [mbind result_mbind result_bind]. rewrite Hmaps. reflexivity.
    + intros [|j] b Hj.
      * injection Hj as <-. exists m. split; [reflexivity |].
        intros pos Hpos.
        rewrite (translate_batches_untouched _ _ _ _ _ _ _ pos Hrest).
        -- now rewrite merge_batch_lookup, decide_True.
        -- intros other Hin Hpos'. exact (Hother other pos Hin Hpos' Hpos).
      * cbn in Hj. destruct (Hmerge j b Hj) as (m' & Hm' & Hpos').
        exists m'. split; [exact Hm' |]. intros pos Hpos.
        rewrite (Hpos' pos Hpos), merge_batch_lookup, decide_False;
          [reflexivity |].
        apply Hother with b; [| exact Hpos].
        apply list_elem_of_lookup. eauto.
Qed.

(** Every dictionary of a run is what the translator returned for its
    batch, and the log of that call is part of the log of the run. *)
Lemma batch_maps_lookup (args : Args) (chunks : list (list Sub)) :
  forall (st st' : B) (maps : list (gmap string string)) (log : list event)
         (j : nat) (chunk : list Sub) (m : gmap string string),
    batch_maps chunks args st = Ok (maps, st', log) ->
    chunks !! j = Some chunk ->
    maps !! j = Some m ->
    exists st0 st1 log0,
      process_batch chunk args 0 st0 = Ok (m, st1, log0)
      /\ forall e, e ∈ log0 -> e ∈ log.
Proof.
  induction chunks as [|c chunks IH]; intros st st' maps log j chunk m;
    [discriminate 2 |].
  cbn [batch_maps].
  destruct (process_batch c args 0 st) as [[[m0 st1] log1]| |] eqn:Hrun;
    try discriminate.
  cbn [mbind result_mbind result_bind].
  destruct (batch_maps chunks args st1) as [[[maps' st2] log2]| |] eqn:Hrest;
    try discriminate.
  cbn [mbind result_mbind result_bind]. intros [= <- <- <-] Hc Hm.
  destruct j as [|j].
  - injection Hc as <-. injection Hm as <-.
    exists st, st1, log1. split; [exact Hrun |].
    intros e He. apply elem_of_app. now left.
  - cbn in Hc, Hm.
    destruct (IH _ _ _ _ _ _ _ Hrest Hc Hm) as (st0 & st3 & log0 & Hrun' & Hsub).
    exists st0, st3, log0. split; [exact Hrun' |].
    intros e He. apply elem_of_app. right. now apply Hsub.
Qed.

End RunMapsFacts.

(** The slices of the driver are disjoint. *)
Lemma slices_disjoint (total k : nat) (q : nat) :
  forall a,
    batches_disjoint
      (map (fun i => slice_positions total i k)
         (map (fun j => (j * k)%nat) (seq a q))).
Proof.
  induction q as [|q IH]; intros a; [exact I |].
  cbn [seq map batches_disjoint]. split; [| apply IH].
  apply Forall_forall. intros other Hother pos Hpos Hpos'.
  apply list_elem_of_fmap in Hother as (i & -> & Hi).
  apply list_elem_of_fmap in Hi as (j & -> & Hj).
  apply elem_of_seq in Hj as [Hj _].
  unfold slice_positions in Hpos, Hpos'.
  apply elem_of_seq in Hpos. apply elem_of_seq in Hpos'. nia.
Qed.

Section RunPipelineMaps.
Context {B : Type} `{Backend B}.

(** A completed run with a positive batch size, seen through the
    dictionaries that the translator returned in it: the record at the
    position [pos] is in the batch [pos / batch_size], and it ends as the
    merge of the dictionary of that batch into the parsed record. *)
Lemma run_pipeline_maps (args : Args) (input_content : string)
    (st st' : B) (subtitles : list Sub) (log : list event) :
  (0 < batch_size args)%Z ->
  run_pipeline args input_content st = Ok (subtitles, st', log) ->
  exists chunks maps,
    chunks_of (parse_srt input_content) (batch_size args) = Ok chunks
    /\ batch_maps chunks args st = Ok (maps, st', log)
    /\ length subtitles = length (parse_srt input_content)
    /\ forall pos sub,
        parse_srt input_content !! pos = Some sub ->
        exists chunk m,
          chunks !! (pos / Z.to_nat (batch_size args))%nat = Some chunk
          /\ sub ∈ chunk
          /\ maps !! (pos / Z.to_nat (batch_size args))%nat = Some m
          /\ subtitles !! pos = Some (merge_sub m sub).
Proof.
  intros Hsize Hrun. pose proof Hrun as Hrun0.
  unfold run_pipeline in Hrun. unfold chunks_of.
  set (parsed := parse_srt input_content) in *.
  set (k := Z.to_nat (batch_size args)) in *.
  assert (Hk : (0 < k)%nat) by (subst k; lia).
  unfold range_from_zero in *.
  destruct (batch_size args =? 0)%Z eqn:H0; [apply Z.eqb_eq in H0; lia |].
  destruct (batch_size args <? 0)%Z eqn:Hneg;
    [apply Z.ltb_lt in Hneg; lia |].
  fold k in Hrun |- *. cbn [mbind result_mbind result_bind] in Hrun |- *.
  set (q := ((length parsed + k - 1) / k)%nat) in *.
  destruct (translate_batches_maps _ _ _ _ _ _ _
              (slices_disjoint (length parsed) k q 0) Hrun)
    as (maps & Hmaps & Hmerge).
  set (starts := map (fun j => (j * k)%nat) (seq 0 q)) in *.
  assert (Hchunks : map (batch_records parsed)
                      (map (fun i => slice_positions (length parsed) i k)
                         starts)
                    = map (fun i => take k (drop i parsed)) starts).
  { rewrite map_map. apply map_ext. intros i. apply batch_records_slice. }
  rewrite Hchunks in Hmaps.
  exists (map (fun i => take k (drop i parsed)) starts), maps.
  split; [reflexivity |]. split; [exact Hmaps |]. split.
  { now apply translate_batches_inv in Hrun as [Hlen _]. }
  intros pos sub Hsub.
  assert (Hpos : (pos < length parsed)%nat) by (eapply lookup_lt_Some; eauto).
  pose proof (Nat.div_mod_eq pos k) as Hdiv.
  pose proof (Nat.mod_upper_bound pos k) as Hmod.
  destruct (chunk_count_bounds (length parsed) k Hk) as [Hup Hlow].
  fold q in Hup, Hlow.
  assert (Hj : (pos / k < q)%nat) by nia.
  assert (Hstart : starts !! (pos / k)%nat = Some (pos / k * k)%nat).
  { subst starts. change (map ?f ?l) with (f <$> l).
    rewrite list_lookup_fmap, lookup_seq_lt by exact Hj. reflexivity. }
  assert (Hslice : pos ∈ slice_positions (length parsed) (pos / k * k) k).
  { unfold slice_positions. apply elem_of_seq. nia. }
  destruct (Hmerge (pos / k)%nat
              (slice_positions (length parsed) (pos / k * k) k))
    as (m & Hm & Hfinal).
  { change (map ?f ?l) with (f <$> l).
    now rewrite list_lookup_fmap, Hstart. }
  exists (take k (drop (pos / k * k) parsed)), m.
  split; [| split; [| split]].
  - change (map ?f ?l) with (f <$> l).
    now rewrite list_lookup_fmap, Hstart.
  - rewrite <- batch_records_slice.
    now apply batch_records_elem with pos.
  - exact Hm.
  - rewrite (Hfinal pos Hslice), Hsub. reflexivity.
Qed.

Lemma merge_sub_translated (m : gmap string string) (sub : Sub) :
  translated_text (merge_sub m sub)
  = match m !! index sub with
    | Some translated => translated
    | None => text sub
    end.
Proof.
  destruct (m !! index sub) as [t|] eqn:Hm.
  - now apply merge_sub_lookup.
  - now rewrite merge_sub_none.
Qed.

End RunPipelineMaps.

(** ** A reply that arrives after failed attempts *)

Section LaterAttempts.
Context {B : Type} `{Backend B}.
Variables (batch_ids : list string) (args : Args).
Variables (system_prompt user_input : string) (depth : nat).

(** After [k] attempts that were not accepted the loop goes on as a loop
    of the attempts that are left, in the state that they left. *)
Lemma attempts_after_failures (k n : nat) :
  forall (st st_k : B) (log_k : list event),
    attempts k batch_ids args system_prompt user_input depth st
    = (None, st_k, log_k) ->
    attempts (k + n) batch_ids args system_prompt user_input depth st
    = let '(found, st', log) :=
        attempts n batch_ids args system_prompt user_input depth st_k in
      (found, st', (log_k ++ log)%list).
Proof.
  induction k as [|k IH]; intros st st_k log_k.
  - intros [= <- <-]. cbn [plus app].
    now destruct (attempts n _ _ _ _ _ st) as [[found st'] log].
  - cbn [plus attempts].
    destruct (chat st (model args) system_prompt user_input)
      as [[content|message] st0].
    + destruct (missing_ids batch_ids (parse_llm_response content));
        [discriminate |].
      apply IH.
    + destruct (attempts k batch_ids args system_prompt user_input depth st0)
        as [[found st2] log'] eqn:Hrec.
      intros [= -> -> <-]. rewrite (IH _ _ _ Hrec).
      now destruct (attempts n _ _ _ _ _ st_k) as [[found st'] log].
Qed.

Lemma attempts_reply_after_failures (k total : nat) (st st_k st1 : B)
    (log_k : list event) (content : string) :
  (k < total)%nat ->
  attempts k batch_ids args system_prompt user_input depth st
  = (None, st_k, log_k) ->
  chat st_k (model args) system_prompt user_input = (Reply content, st1) ->
  missing_ids batch_ids (parse_llm_response content) = [] ->
  attempts total batch_ids args system_prompt user_input depth st
  = (Some (parse_llm_response content), st1, log_k).
Proof.
  intros Hk Hfail Hchat Hmiss.
  replace total with (k + S (total - S k))%nat by lia.
  rewrite (attempts_after_failures _ _ _ _ _ Hfail).
  rewrite (attempts_complete _ _ _ _ _ _ _ _ _ Hchat Hmiss).
  now rewrite app_nil_r.
Qed.

End LaterAttempts.

Section EmptyBatch.
Context {B : Type} `{Backend B}.

(** Without ids every reply is complete: attempts that were not accepted
    all raised, and each of them left one line in the log. *)
Lemma attempts_empty_none (k : nat) (args : Args)
    (system_prompt user_input : string) (depth : nat) :
  forall (st st_k : B) (log_k : list event),
    attempts k [] args system_prompt user_input depth st
    = (None, st_k, log_k) ->
    length log_k = k
    /\ Forall (fun e => exists message, e = LogError depth message) log_k.
Proof.
  induction k as [|k IH]; intros st st_k log_k.
  - intros [= <- <-]. split; [reflexivity | constructor].
  - cbn [attempts].
    destruct (chat st (model args) system_prompt user_input)
      as [[content|message] st0]; [discriminate |].
    destruct (attempts k [] args system_prompt user_input depth st0)
      as [[found st2] log'] eqn:Hrec.
    intros [= -> -> <-]. destruct (IH _ _ _ Hrec) as [Hlen Hall].
    split; [cbn; now rewrite Hlen |]. constructor; [eauto | exact Hall].
Qed.

End EmptyBatch.

(** * The claims and properties on the dictionaries of the run *)

(** C1, amended.  When the pipeline completes for a positive batch size,
    the output has one record for each parsed record.  Let the batches be
    the slices of the parsed records and the dictionaries be those that
    the translator returns for them in this run, one call after the other.
    The record at the position [pos] belongs to the batch
    [pos / batch_size]; its translation is the value that the dictionary
    of that batch has under the record's id when there is one, and the
    record's source text otherwise.  The source text is never empty, so
    the translation is empty only when that dictionary holds the empty
    string for the id. *)
Theorem C1_translation_of_the_run {B : Type} `{Backend B} (args : Args)
    (input_content : string) (st st' : B) (subtitles : list Sub)
    (log : list event) :
  (0 < batch_size args)%Z ->
  run_pipeline args input_content st = Ok (subtitles, st', log) ->
  exists chunks maps,
    chunks_of (parse_srt input_content) (batch_size args) = Ok chunks
    /\ batch_maps chunks args st = Ok (maps, st', log)
    /\ length subtitles = length (parse_srt input_content)
    /\ forall pos sub,
        parse_srt input_content !! pos = Some sub ->
        exists chunk m sub',
          chunks !! (pos / Z.to_nat (batch_size args))%nat = Some chunk
          /\ sub ∈ chunk
          /\ maps !! (pos / Z.to_nat (batch_size args))%nat = Some m
          /\ subtitles !! pos = Some sub'
          /\ index sub' = index sub
          /\ text sub' = text sub
          /\ text sub <> ""
          /\ translated_text sub'
             = match m !! index sub with
               | Some translated => translated
               | None => text sub
               end
          /\ (translated_text sub' = "" -> m !! index sub = Some "").
Proof.
  intros Hsize Hrun.
  destruct (run_pipeline_maps args input_content st st' subtitles log
              Hsize Hrun) as (chunks & maps & Hchunks & Hmaps & Hlen & Hall).
  exists chunks, maps. repeat (split; [assumption |]).
  intros pos sub Hsub.
  destruct (Hall pos sub Hsub) as (chunk & m & Hchunk & Hin & Hm & Hfinal).
  assert (Htext : text sub <> "").
  { apply SrtFacts.parse_srt_text with input_content.
    apply list_elem_of_lookup. eauto. }
  exists chunk, m, (merge_sub m sub).
  repeat (split; [assumption || reflexivity |]).
  split; [apply merge_sub_translated |].
  rewrite merge_sub_translated.
  destruct (m !! index sub) as [t|]; [now intros -> | contradiction].
Qed.

Lemma C1_witness :
  (0 < batch_size sample_args)%Z
  /\ @run_pipeline _ scripted_backend sample_args two_block_file stray_script
     = Ok ([ {| index := "1"; timestamp := sample_timecode; text := "Hello";
                translated_text := "stray" |};
             {| index := "2"; timestamp := sample_timecode; text := "Bye";
                translated_text := "y" |} ], [],
           [LogError 0 "timeout"; LogError 0 "timeout"; LogSplit 0 2 1 1;
            LogError 1 "timeout"; LogError 1 "timeout"; LogFailed 1 "1"])
  /\ exists chunks maps,
      chunks_of (parse_srt two_block_file) (batch_size sample_args)
      = Ok chunks
      /\ @batch_maps _ scripted_backend chunks sample_args stray_script
         = Ok (maps, [],
               [LogError 0 "timeout"; LogError 0 "timeout"; LogSplit 0 2 1 1;
                LogError 1 "timeout"; LogError 1 "timeout"; LogFailed 1 "1"])
      /\ maps = [ {[ "1" := "stray"; "2" := "y" ]} ].
Proof.
  assert (Hsize : (0 < batch_size sample_args)%Z) by (vm_compute; reflexivity).
  assert (Hrun :
            @run_pipeline _ scripted_backend sample_args two_block_file
              stray_script
            = Ok ([ {| index := "1"; timestamp := sample_timecode;
                       text := "Hello"; translated_text := "stray" |};
                    {| index := "2"; timestamp := sample_timecode;
                       text := "Bye"; translated_text := "y" |} ], [],
                  [LogError 0 "timeout"; LogError 0 "timeout";
                   LogSplit 0 2 1 1; LogError 1 "timeout";
                   LogError 1 "timeout"; LogFailed 1 "1"]))
    by (vm_compute; reflexivity).
  split; [exact Hsize |]. split; [exact Hrun |].
  destruct (@C1_translation_of_the_run _ scripted_backend sample_args
              two_block_file stray_script _ _ _ Hsize Hrun)
    as (chunks & maps & Hchunks & Hmaps & _).
  exists chunks, maps. split; [exact Hchunks |]. split; [exact Hmaps |].
  assert (Hc : chunks = [parse_srt two_block_file]).
  { assert (Hv : chunks_of (parse_srt two_block_file)
                   (batch_size sample_args)
                 = Ok [parse_srt two_block_file])
      by (vm_compute; reflexivity).
    rewrite Hv in Hchunks. now injection Hchunks as <-. }
  subst chunks.
  assert (Hv : @batch_maps _ scripted_backend [parse_srt two_block_file]
                 sample_args stray_script
               = Ok ([ {[ "1" := "stray"; "2" := "y" ]} ], [],
                     [LogError 0 "timeout"; LogError 0 "timeout";
                      LogSplit 0 2 1 1; LogError 1 "timeout";
                      LogError 1 "timeout"; LogFailed 1 "1"]))
    by (vm_compute; reflexivity).
  rewrite Hv in Hmaps. now injection Hmaps as <-.
Defined.

(** C4.  The code at an input where it departs from the claim.  The file
    has the records 1 and 2 in one batch; the first four calls of the
    backend fail and the fifth reply, which answers the record 2, also
    carries the id 1.  The batch of the record 1 alone, reached by the
    bisection, has every attempt fail: the translator returns the empty
    dictionary for it with no nested call, and logs that the line keeps
    its original text.  The dictionary of the other half is united with
    it, and the driver gives the record 1 the stray value, not its source
    text. *)
Theorem C4_stray_id_replaces_fallback :
  take 1 (parse_srt two_block_file) = [sample_sub "1" "Hello"]
  /\ @retries_exhausted _ scripted_backend [sample_sub "1" "Hello"]
       sample_args (drop 2 stray_script) = true
  /\ @process_batch_recursive _ scripted_backend 1 [sample_sub "1" "Hello"]
       sample_args 1 (drop 2 stray_script)
     = Ok (∅, [Reply stray_reply],
           [LogError 1 "timeout"; LogError 1 "timeout"; LogFailed 1 "1"])
  /\ @process_batch _ scripted_backend (parse_srt two_block_file)
       sample_args 0 stray_script
     = Ok ({[ "1" := "stray"; "2" := "y" ]}, [],
           [LogError 0 "timeout"; LogError 0 "timeout"; LogSplit 0 2 1 1;
            LogError 1 "timeout"; LogError 1 "timeout"; LogFailed 1 "1"])
  /\ @run_pipeline _ scripted_backend sample_args two_block_file stray_script
     = Ok ([ {| index := "1"; timestamp := sample_timecode; text := "Hello";
                translated_text := "stray" |};
             {| index := "2"; timestamp := sample_timecode; text := "Bye";
                translated_text := "y" |} ], [],
           [LogError 0 "timeout"; LogError 0 "timeout"; LogSplit 0 2 1 1;
            LogError 1 "timeout"; LogError 1 "timeout"; LogFailed 1 "1"])
  /\ "stray" <> text (sample_sub "1" "Hello").
Proof.
  repeat split; try (vm_compute; reflexivity). vm_compute. discriminate.
Qed.

Section StatedOnTheRun.
Context {B : Type} `{Backend B}.


(** X10.  In a completed run with a positive batch size, a record whose
    id is not in the dictionary that the translator returned for its batch
    in this run keeps its source text and has a line of failure for its id
    in the log of the run; a record whose id is in that dictionary gets
    the value found there.  No record falls back silently. *)
Theorem run_pipeline_fallback_logged (args : Args) (input_content : string)
    (st st' : B) (subtitles : list Sub) (log : list event) :
  (0 < batch_size args)%Z ->
  run_pipeline args input_content st = Ok (subtitles, st', log) ->
  exists chunks maps,
    chunks_of (parse_srt input_content) (batch_size args) = Ok chunks
    /\ batch_maps chunks args st = Ok (maps, st', log)
    /\ forall pos sub,
        parse_srt input_content !! pos = Some sub ->
        exists m sub',
          maps !! (pos / Z.to_nat (batch_size args))%nat = Some m
          /\ subtitles !! pos = Some sub'
          /\ (m !! index sub = None ->
              translated_text sub' = text sub
              /\ exists d, LogFailed d (index sub) ∈ log)
          /\ (forall translated,
                 m !! index sub = Some translated ->
                 translated_text sub' = translated).
Proof.
  intros Hsize Hrun.
  destruct (run_pipeline_maps args input_content st st' subtitles log
              Hsize Hrun) as (chunks & maps & Hchunks & Hmaps & _ & Hall).
  exists chunks, maps. split; [exact Hchunks |]. split; [exact Hmaps |].
  intros pos sub Hsub.
  destruct (Hall pos sub Hsub) as (chunk & m & Hchunk & Hin & Hm & Hfinal).
  exists m, (merge_sub m sub). split; [exact Hm |]. split; [exact Hfinal |].
  split.
  - intros Hnone. split; [now rewrite (merge_sub_none m sub Hnone) |].
    destruct (batch_maps_lookup _ _ _ _ _ _ _ _ _ Hmaps Hchunk Hm)
      as (st0 & st1 & log0 & Hrun0 & Hsub0).
    unfold process_batch in Hrun0.
    destruct (process_batch_recursive_covered _ _ _ _ _ _ _ _ Hrun0 sub Hin)
      as [[t Ht]|[d Hd]]; [congruence |].
    exists d. now apply Hsub0.
  - intros translated Ht. now apply merge_sub_lookup.
Qed.

(** X5.  On an empty batch the translator raises [IndexError] when every
    attempt fails.  Otherwise the attempts before the first reply all
    raised, each leaving its line in the log, and the translator returns
    the dictionary of that first reply, whatever it holds: any reply is
    complete for a batch without ids. *)
Theorem process_batch_recursive_empty (fuel : nat) (args : Args)
    (depth : nat) (st : B) :
  (retries_exhausted [] args st = true ->
   process_batch_recursive (S fuel) [] args depth st = Raise IndexError)
  /\ (forall k st_k log_k content st1,
         (k < Z.to_nat (retries args))%nat ->
         attempts k [] args (generate_prompt [] (lang args)).1
           (generate_prompt [] (lang args)).2 depth st
         = (None, st_k, log_k) ->
         chat st_k (model args) (generate_prompt [] (lang args)).1
           (generate_prompt [] (lang args)).2
         = (Reply content, st1) ->
         length log_k = k
         /\ Forall (fun e => exists message, e = LogError depth message) log_k
         /\ process_batch_recursive (S fuel) [] args depth st
            = Ok (parse_llm_response content, st1, log_k)).
Proof.
  split.
  - intros Hex.
    apply (retries_exhausted_attempts [] args depth st) in Hex
      as (st1 & log & Hatt).
    unfold attempts_of in Hatt.
    cbn [process_batch_recursive generate_prompt fst snd] in Hatt |- *.
    now rewrite Hatt.
  - intros k st_k log_k content st1 Hk Hfail Hchat.
    destruct (attempts_empty_none _ _ _ _ _ _ _ _ Hfail) as [Hlen Hall].
    split; [exact Hlen |]. split; [exact Hall |].
    apply process_batch_recursive_success. unfold attempts_of.
    now apply attempts_reply_after_failures with k st_k.
Qed.

End StatedOnTheRun.


Lemma run_pipeline_fallback_logged_witness :
  (0 < batch_size sample_args)%Z
  /\ @run_pipeline _ scripted_backend sample_args sample_file []
     = Ok ([keep_source (sample_sub "7" "Hi")], [],
           [LogError 0 "connection refused"; LogError 0 "connection refused";
            LogFailed 0 "7"])
  /\ exists chunks maps,
      chunks_of (parse_srt sample_file) (batch_size sample_args) = Ok chunks
      /\ @batch_maps _ scripted_backend chunks sample_args []
         = Ok (maps, [],
               [LogError 0 "connection refused";
                LogError 0 "connection refused"; LogFailed 0 "7"])
      /\ forall pos sub,
          parse_srt sample_file !! pos = Some sub ->
          exists m sub',
            maps !! (pos / Z.to_nat (batch_size sample_args))%nat = Some m
            /\ [keep_source (sample_sub "7" "Hi")] !! pos = Some sub'
            /\ (m !! index sub = None ->
                translated_text sub' = text sub
                /\ exists d,
                    LogFailed d (index sub)
                    ∈ [LogError 0 "connection refused";
                       LogError 0 "connection refused"; LogFailed 0 "7"])
            /\ (forall translated,
                   m !! index sub = Some translated ->
                   translated_text sub' = translated).
Proof.
  assert (Hsize : (0 < batch_size sample_args)%Z) by (vm_compute; reflexivity).
  assert (Hrun : @run_pipeline _ scripted_backend sample_args sample_file []
                 = Ok ([keep_source (sample_sub "7" "Hi")], [],
                       [LogError 0 "connection refused";
                        LogError 0 "connection refused"; LogFailed 0 "7"]))
    by (vm_compute; reflexivity).
  exact (conj Hsize (conj Hrun
           (@run_pipeline_fallback_logged _ scripted_backend sample_args
              sample_file [] _ _ _ Hsize Hrun))).
Defined.

Lemma process_batch_recursive_empty_witness :
  @retries_exhausted _ scripted_backend [] sample_args [] = true
  /\ @process_batch_recursive _ scripted_backend 1 [] sample_args 0 []
     = Raise IndexError
  /\ (1 < Z.to_nat (retries sample_args))%nat
  /\ @attempts _ scripted_backend 1 [] sample_args
       (generate_prompt [] (lang sample_args)).1
       (generate_prompt [] (lang sample_args)).2 0
       [ChatError "timeout"; Reply "anything"]
     = (None, [Reply "anything"], [LogError 0 "timeout"])
  /\ @process_batch_recursive _ scripted_backend 1 [] sample_args 0
       [ChatError "timeout"; Reply "anything"]
     = Ok (parse_llm_response "anything", [], [LogError 0 "timeout"]).
Proof.
  assert (Hex : @retries_exhausted _ scripted_backend [] sample_args [] = true)
    by (vm_compute; reflexivity).
  assert (Hk : (1 < Z.to_nat (retries sample_args))%nat) by (vm_compute; lia).
  assert (Hfail : @attempts _ scripted_backend 1 [] sample_args
                    (generate_prompt [] (lang sample_args)).1
                    (generate_prompt [] (lang sample_args)).2 0
                    [ChatError "timeout"; Reply "anything"]
                  = (None, [Reply "anything"], [LogError 0 "timeout"]))
    by (vm_compute; reflexivity).
  split; [exact Hex |]. split.
  - exact (proj1 (@process_batch_recursive_empty _ scripted_backend 0
                    sample_args 0 []) Hex).
  - split; [exact Hk |]. split; [exact Hfail |].
    exact (proj2 (proj2 (proj2 (@process_batch_recursive_empty _
                                  scripted_backend 0 sample_args 0
                                  [ChatError "timeout"; Reply "anything"])
                           1%nat [Reply "anything"] [LogError 0 "timeout"]
                           "anything" [] Hk Hfail eq_refl))).
Defined.
